(** * studioqt.imagesequence: natural ordering, sequence source and playback

    A shallow embedding of [src/studioqt/imagesequence.py] (class
    [ImageSequence]) and the properties of its natural sort, its three
    path setters and its play / pause / stop / reset life cycle.

    Conventions of the embedding:
    - Python integers are [Z]; the float expression of [percent] is
      read in exact rational arithmetic ([Q]); the timer interval of
      [start] is the whole number of milliseconds the timer keeps.
    - Python text is [string]; one [ascii] stands for one code point in
      the range U+0000..U+00FF, so the strings of this file are the
      Python strings whose code points are all below 256.
    - A method is a function from the world (the instance attributes, the
      store of [BytesIO] objects, the log of emitted signals) to an
      outcome and the world it leaves behind: Python mutates in place, so
      the world after a raised exception is still observable. *)

From Stdlib Require Import ZArith QArith Lia.
From Stdlib Require Import Ascii String.
From Stdlib.Strings Require Import Byte.
From Stdlib Require Import Sorting.Permutation Sorting.Sorted.
From stdpp Require Import base option list.

Local Open Scope string_scope.
Local Open Scope Z_scope.

(* ===================================================================== *)
(** ** Python outcomes *)
(* ===================================================================== *)

Module Py.

(** The built-in exceptions that the modelled code can raise. *)
Inductive exn : Set :=
| ValueError
| TypeError
| IndexError
| KeyError
| AttributeError
| ZeroDivisionError
| OverflowError
| BadZipFile.

Inductive outcome (A : Type) : Type :=
| Return (a : A)
| Raise (e : exn).
Arguments Return {A} a.
Arguments Raise {A} e.

Definition exn_eqb (e1 e2 : exn) : bool :=
  match e1, e2 with
  | ValueError, ValueError | TypeError, TypeError
  | IndexError, IndexError | KeyError, KeyError
  | AttributeError, AttributeError
  | ZeroDivisionError, ZeroDivisionError
  | OverflowError, OverflowError
  | BadZipFile, BadZipFile => true
  | _, _ => false
  end.

(** Sequencing of pure computations that may raise. *)
Definition obind {A B} (m : outcome A) (k : A -> outcome B) : outcome B :=
  match m with
  | Return a => k a
  | Raise e => Raise e
  end.

Fixpoint omap {A B} (f : A -> outcome B) (l : list A) : outcome (list B) :=
  match l with
  | [] => Return []
  | x :: l' =>
      obind (f x) (fun y => obind (omap f l') (fun ys => Return (y :: ys)))
  end.

(** [l[i]] for a Python list: a negative index counts from the end, an
    index outside [-len(l), len(l)) raises [IndexError]. *)
Definition getitem {A} (l : list A) (i : Z) : outcome A :=
  let n := Z.of_nat (length l) in
  let j := if i <? 0 then i + n else i in
  if (j <? 0) || (n <=? j) then Raise IndexError
  else match l !! Z.to_nat j with
       | Some x => Return x
       | None => Raise IndexError
       end.

(** Truth value of an optional string ([None] and [''] are false). *)
Definition truthy (o : option string) : bool :=
  match o with
  | Some (String _ _) => true
  | _ => false
  end.

End Py.
Import Py.

(* ===================================================================== *)
(** ** NaturalOrdering: [ImageSequence.naturalSortItems] *)
(* ===================================================================== *)

Module NaturalOrdering.

(** The character class [[0-9]] of the split pattern. *)
Definition is_ascii_digit (c : ascii) : bool :=
  let n := N_of_ascii c in ((48 <=? n) && (n <=? 57))%N.

(** Code points below 256 that [str.isdigit] accepts although they are
    not decimal digits: SUPERSCRIPT TWO (U+00B2), SUPERSCRIPT THREE
    (U+00B3) and SUPERSCRIPT ONE (U+00B9). *)
Definition is_superscript_digit (c : ascii) : bool :=
  let n := N_of_ascii c in ((n =? 178) || (n =? 179) || (n =? 185))%N.

Definition char_isdigit (c : ascii) : bool :=
  is_ascii_digit c || is_superscript_digit c.

Fixpoint all_chars (p : ascii -> bool) (s : string) : bool :=
  match s with
  | EmptyString => true
  | String c s' => p c && all_chars p s'
  end.

(** [text.isdigit()] on the strings of this file (code points below
    256): at least one character and every character a digit. *)
Definition isdigit (text : string) : bool :=
  match text with
  | EmptyString => false
  | String _ _ => all_chars char_isdigit text
  end.

(** Value of a run of decimal digits read from the left, [None] at the
    first character that is not a decimal digit. *)
Fixpoint decimal_value (acc : Z) (s : string) : option Z :=
  match s with
  | EmptyString => Some acc
  | String c s' =>
      if is_ascii_digit c
      then decimal_value (10 * acc + (Z.of_N (N_of_ascii c) - 48)) s'
      else None
  end.

(** The default of [sys.int_max_str_digits]: [int] refuses a text with
    more digits. *)
Definition int_max_str_digits : nat := 4300.

(** [int(text)] on the texts [convert] hands to it (those accepted by
    [isdigit]): the decimal value, or [ValueError] when the text has
    more than [int_max_str_digits] digits or when a character is a digit
    but not a decimal one. Among the code points below 256 the decimal
    digits are those of [[0-9]]. *)
Definition int_ (text : string) : outcome Z :=
  if (int_max_str_digits <? String.length text)%nat then Raise ValueError
  else match decimal_value 0 text with
       | Some n => Return n
       | None => Raise ValueError
       end.

(** An element of a sort key: text or integer. *)
Inductive token : Set :=
| TStr (s : string)
| TInt (n : Z).

(** [convert = lambda text: int(text) if text.isdigit() else text] *)
Definition convert (text : string) : outcome token :=
  if isdigit text
  then obind (int_ text) (fun n => Return (TInt n))
  else Return (TStr text).

(** Left-to-right scanner for [re.split('([0-9]+)', key)]. [acc] is the
    run being read and [in_digits] tells whether it is a match of the
    pattern. A run ends where the class of the next character differs;
    a match at the very end is followed by the empty remainder. *)
Fixpoint scan (in_digits : bool) (acc : string) (s : string) : list string :=
  match s with
  | EmptyString => if in_digits then [acc; ""] else [acc]
  | String c s' =>
      if Bool.eqb (is_ascii_digit c) in_digits
      then scan in_digits (acc ++ String c "") s'
      else acc :: scan (negb in_digits) (String c "") s'
  end.

Definition re_split (key : string) : list string := scan false "" key.

(** [alphanum_key = lambda key: [convert(c) for c in re.split(...)]] *)
Definition alphanum_key (key : string) : outcome (list token) :=
  omap convert (re_split key).

(** [a == b] on key elements; an integer never equals a text. *)
Definition token_eqb (a b : token) : bool :=
  match a, b with
  | TStr s, TStr t => String.eqb s t
  | TInt m, TInt n => m =? n
  | _, _ => false
  end.

(** [a < b] on key elements; text against integer is a [TypeError]. *)
Definition token_ltb (a b : token) : outcome bool :=
  match a, b with
  | TStr s, TStr t => Return (String.ltb s t)
  | TInt m, TInt n => Return (m <? n)
  | _, _ => Raise TypeError
  end.

(** [k1 < k2] on lists: the first position where the elements are not
    equal decides, otherwise the shorter list is the smaller. *)
Fixpoint key_ltb (k1 k2 : list token) : outcome bool :=
  match k1, k2 with
  | [], [] => Return false
  | [], _ :: _ => Return true
  | _ :: _, [] => Return false
  | a :: k1', b :: k2' =>
      if token_eqb a b then key_ltb k1' k2' else token_ltb a b
  end.

(** [list.sort(key=...)] is stable and compares keys with [<] only. The
    keys are computed first, for every item; then the decorated items
    are sorted. The sort is written as a stable insertion sort: [x]
    stood before every element of [l], so it goes before the first [y]
    that is not smaller than it. When no comparison raises, every
    stable sort returns this list. *)
Definition decorated : Type := list token * string.

Fixpoint insert_sorted (x : decorated) (l : list decorated)
  : outcome (list decorated) :=
  match l with
  | [] => Return [x]
  | y :: l' =>
      obind (key_ltb (fst y) (fst x)) (fun b =>
        if b then obind (insert_sorted x l') (fun r => Return (y :: r))
        else Return (x :: y :: l'))
  end.

Fixpoint sort_decorated (l : list decorated) : outcome (list decorated) :=
  match l with
  | [] => Return []
  | x :: l' => obind (sort_decorated l') (insert_sorted x)
  end.

Definition decorate (item : string) : outcome decorated :=
  obind (alphanum_key item) (fun k => Return (k, item)).

(** [naturalSortItems(items)]: the new contents of [items], or the
    exception; when the key function raises, [items] is left as it
    was. *)
Definition naturalSortItems (items : list string) : outcome (list string) :=
  obind (omap decorate items) (fun ds =>
  obind (sort_decorated ds) (fun sorted =>
  Return (map snd sorted))).

(** *** Shapes of splits and keys *)

(** A match of the pattern: one or more characters of [[0-9]]. *)
Definition is_digit_run (s : string) : bool :=
  match s with
  | EmptyString => false
  | String _ _ => all_chars is_ascii_digit s
  end.

(** A stretch between matches: no character of [[0-9]]. *)
Definition is_text_run (s : string) : bool :=
  all_chars (fun c => negb (is_ascii_digit c)) s.

(** Text and matches alternate and the list ends with text;
    [in_digits] tells what the head has to be. *)
Fixpoint split_shape (in_digits : bool) (l : list string) : bool :=
  match l with
  | [] => in_digits
  | s :: l' =>
      (if in_digits then is_digit_run s else is_text_run s)
      && split_shape (negb in_digits) l'
  end.

(** The pieces of a split, exactly: text and matches alternate, the
    list ends with text, and only the first and the last text may be
    empty, so that every match is a whole run of digits. [first] tells
    whether the head is the first piece. *)
Fixpoint run_pieces (in_digits first : bool) (l : list string) : bool :=
  match l with
  | [] => false
  | s :: l' =>
      if in_digits then is_digit_run s && run_pieces false false l'
      else is_text_run s
           && match l' with
              | [] => true
              | _ :: _ =>
                  (first || negb (String.eqb s "")) && run_pieces true false l'
              end
  end.

(** A text [int] does not refuse for its length. *)
Definition short (s : string) : bool :=
  (String.length s <=? int_max_str_digits)%nat.

(** Texts and integers alternate in a key; [expect_int] tells what the
    head has to be. *)
Fixpoint key_shape (expect_int : bool) (k : list token) : bool :=
  match k with
  | [] => true
  | TStr _ :: k' => negb expect_int && key_shape true k'
  | TInt _ :: k' => expect_int && key_shape false k'
  end.

(** Three-way comparison of key elements of one kind, and of keys,
    lexicographically; used to reason about [key_ltb]. *)
Definition token_cmp (a b : token) : comparison :=
  match a, b with
  | TStr s, TStr t => String.compare s t
  | TInt m, TInt n => Z.compare m n
  | _, _ => Eq
  end.

Fixpoint key_cmp (k1 k2 : list token) : comparison :=
  match k1, k2 with
  | [], [] => Eq
  | [], _ :: _ => Lt
  | _ :: _, [] => Gt
  | a :: k1', b :: k2' =>
      match token_cmp a b with
      | Eq => key_cmp k1' k2'
      | c => c
      end
  end.

(** [k1 <= k2], read off [<] as the sort does: [k2 < k1] is false. *)
Definition key_le (k1 k2 : list token) : Prop :=
  key_ltb k2 k1 = Return false.

(** The order of the decorated items and the link between an item and
    its key. *)
Definition decorated_le (x y : decorated) : Prop := key_le (fst x) (fst y).

Definition keyed (d : decorated) : Prop :=
  alphanum_key (snd d) = Return (fst d).

(** No character that [str.isdigit] accepts without it being a decimal
    digit. *)
Definition plain (s : string) : bool :=
  all_chars (fun c => negb (is_superscript_digit c)) s.

End NaturalOrdering.

(* ===================================================================== *)
(** ** The objects an [ImageSequence] works with *)
(* ===================================================================== *)

Module Host.

(** What the operating system and the [zipfile] module answer for a
    path. [open_zip] is [ZipFile(path, 'r')] as the list of the
    archive's members in directory order, [None] when the file cannot
    be opened as an archive. *)
Record FileSystem : Type := {
  is_zipfile : string -> bool;
  isfile : string -> bool;
  isdir : string -> bool;
  listdir : string -> list string;
  open_zip : string -> option (list (string * list byte))
}.

(** An [io.BytesIO] object of the store. Its bytes are either none at
    all ([None]) or an archive, kept as the list of its members. *)
Record BytesIO : Type := {
  closed : bool;
  archive : option (list (string * list byte))
}.

Definition BytesIO_new : BytesIO := {| closed := false; archive := None |}.

(** [b.close()] frees the buffer. *)
Definition BytesIO_close (b : BytesIO) : BytesIO :=
  {| closed := true; archive := None |}.

(** [ZipFile(buffer, 'r')]: a read handle that refers to a [BytesIO]
    of the store by its address and holds the member names it found
    when it was opened. *)
Record ZipFile : Type := { fp : nat; NameToInfo : list string }.

(** [QtCore.QTimer]: the periodic callback. The interval is a whole
    number of milliseconds. *)
Record QTimer : Type := {
  isActive : bool;
  isSingleShot : bool;
  interval : Z
}.

Definition QTimer_new : QTimer :=
  {| isActive := false; isSingleShot := false; interval := 0 |}.

Definition QTimer_setSingleShot (b : bool) (t : QTimer) : QTimer :=
  {| isActive := isActive t; isSingleShot := b; interval := interval t |}.

Definition QTimer_stop (t : QTimer) : QTimer :=
  {| isActive := false; isSingleShot := isSingleShot t;
     interval := interval t |}.

Definition QTimer_start (msec : option Z) (t : QTimer) : QTimer :=
  {| isActive := true; isSingleShot := isSingleShot t;
     interval := default (interval t) msec |}.

(** What [currentPixmap] hands to the decoder: the bytes of a member
    ([loadFromData]) or a file name ([load]). Decoding is not part of
    this module. *)
Inductive QPixmap : Type :=
| LoadedFromData (data : list byte)
| LoadedFromFile (filename : option string).

(** [archive.read(name)] and [archive.namelist()] on a member list; of
    two members with one name the later one is read. *)
Fixpoint read_member (ms : list (string * list byte)) (name : string)
  : option (list byte) :=
  match ms with
  | [] => None
  | (n, data) :: ms' =>
      match read_member ms' name with
      | Some d => Some d
      | None => if String.eqb n name then Some data else None
      end
  end.

Definition namelist (ms : list (string * list byte)) : list string :=
  map fst ms.


End Host.
Import Host.

(* ===================================================================== *)
(** ** ImageSequence *)
(* ===================================================================== *)

Module ImageSequence.

Import NaturalOrdering.

Definition DEFAULT_FPS : Z := 24.

(** The instance attributes of [__init__], the store of [BytesIO]
    objects ([_bytes] is an address into it) and the values emitted on
    the [frameChanged] signal, oldest first. *)
Record World : Type := {
  _fps : Z;
  _timer : option QTimer;
  _frame : Z;
  _frames : list string;
  _dirname : option string;
  _paused : bool;
  _bytes : nat;
  _bytes_read : option ZipFile;
  store : list BytesIO;
  frameChanged : list Z
}.

Definition with_timer (v : option QTimer) (w : World) : World :=
  {| _fps := _fps w; _timer := v; _frame := _frame w;
     _frames := _frames w; _dirname := _dirname w; _paused := _paused w;
     _bytes := _bytes w; _bytes_read := _bytes_read w;
     store := store w; frameChanged := frameChanged w |}.

Definition with_frame (v : Z) (w : World) : World :=
  {| _fps := _fps w; _timer := _timer w; _frame := v;
     _frames := _frames w; _dirname := _dirname w; _paused := _paused w;
     _bytes := _bytes w; _bytes_read := _bytes_read w;
     store := store w; frameChanged := frameChanged w |}.

Definition with_frames (v : list string) (w : World) : World :=
  {| _fps := _fps w; _timer := _timer w; _frame := _frame w;
     _frames := v; _dirname := _dirname w; _paused := _paused w;
     _bytes := _bytes w; _bytes_read := _bytes_read w;
     store := store w; frameChanged := frameChanged w |}.

Definition with_dirname (v : option string) (w : World) : World :=
  {| _fps := _fps w; _timer := _timer w; _frame := _frame w;
     _frames := _frames w; _dirname := v; _paused := _paused w;
     _bytes := _bytes w; _bytes_read := _bytes_read w;
     store := store w; frameChanged := frameChanged w |}.

Definition with_paused (v : bool) (w : World) : World :=
  {| _fps := _fps w; _timer := _timer w; _frame := _frame w;
     _frames := _frames w; _dirname := _dirname w; _paused := v;
     _bytes := _bytes w; _bytes_read := _bytes_read w;
     store := store w; frameChanged := frameChanged w |}.

Definition with_bytes (v : nat) (w : World) : World :=
  {| _fps := _fps w; _timer := _timer w; _frame := _frame w;
     _frames := _frames w; _dirname := _dirname w; _paused := _paused w;
     _bytes := v; _bytes_read := _bytes_read w;
     store := store w; frameChanged := frameChanged w |}.

Definition with_bytes_read (v : option ZipFile) (w : World) : World :=
  {| _fps := _fps w; _timer := _timer w; _frame := _frame w;
     _frames := _frames w; _dirname := _dirname w; _paused := _paused w;
     _bytes := _bytes w; _bytes_read := v;
     store := store w; frameChanged := frameChanged w |}.

Definition with_store (v : list BytesIO) (w : World) : World :=
  {| _fps := _fps w; _timer := _timer w; _frame := _frame w;
     _frames := _frames w; _dirname := _dirname w; _paused := _paused w;
     _bytes := _bytes w; _bytes_read := _bytes_read w;
     store := v; frameChanged := frameChanged w |}.

Definition with_frameChanged (v : list Z) (w : World) : World :=
  {| _fps := _fps w; _timer := _timer w; _frame := _frame w;
     _frames := _frames w; _dirname := _dirname w; _paused := _paused w;
     _bytes := _bytes w; _bytes_read := _bytes_read w;
     store := store w; frameChanged := v |}.

(** *** Methods as world transformers *)

Definition M (A : Type) : Type := World -> outcome A * World.

Definition ret {A} (a : A) : M A := fun w => (Return a, w).

Definition bind {A B} (m : M A) (k : A -> M B) : M B :=
  fun w =>
    match m w with
    | (Return a, w') => k a w'
    | (Raise e, w') => (Raise e, w')
    end.

Definition raise {A} (e : exn) : M A := fun w => (Raise e, w).

Definition lift {A} (o : outcome A) : M A := fun w => (o, w).

Definition get {A} (f : World -> A) : M A := fun w => (Return (f w), w).

Definition modify (f : World -> World) : M unit := fun w => (Return tt, f w).

(** [try: m except e: h] *)
Definition try_except {A} (m : M A) (e : exn) (h : M A) : M A :=
  fun w =>
    match m w with
    | (Raise e', w') => if exn_eqb e e' then h w' else (Raise e', w')
    | r => r
    end.

Definition when (b : bool) (m : M unit) : M unit := if b then m else ret tt.

Declare Scope py_scope.
Delimit Scope py_scope with py.
Notation "'let!' x ':=' m 'in' k" := (bind m (fun x => k))
  (at level 10, x name, m at level 100, k at level 200) : py_scope.
Notation "m ';;' k" := (bind m (fun _ => k))
  (at level 100, k at level 200, right associativity) : py_scope.
Local Open Scope py_scope.

(** The world after a call, and its outcome. *)
Definition after {A} (m : M A) (w : World) : World := snd (m w).
Definition result {A} (m : M A) (w : World) : outcome A := fst (m w).

(** *** Attribute-level helpers *)

(** [self.frameChanged.emit(frame)]: the log keeps the argument of the
    call. *)
Definition emit (frame : Z) : M unit :=
  modify (fun w => with_frameChanged (frameChanged w ++ [frame]) w).

(** What a slot of [frameChanged = QtCore.Signal(int)] receives when
    [emit] is called with the Python integer [v]. The argument of the
    signal is a 32-bit C int: [v] arrives when it fits, and does not
    arrive otherwise (the binding truncates or refuses it), which is
    [None] here. *)
Definition Signal_int (v : Z) : option Z :=
  if (- 2 ^ 31 <=? v) && (v <? 2 ^ 31) then Some v else None.

(** [self._bytes.close()] *)
Definition bytes_close : M unit :=
  modify (fun w => with_store (alter BytesIO_close (_bytes w) (store w)) w).

(** [self._bytes = BytesIO()]: a fresh object at a fresh address. *)
Definition bytes_renew : M unit :=
  modify (fun w =>
    with_bytes (length (store w)) (with_store (store w ++ [BytesIO_new]) w)).

(** [self._timer.<method>(...)]; [self._timer] may still be [None]. *)
Definition timer_call (f : QTimer -> QTimer) : M unit :=
  let! t := get _timer in
  match t with
  | Some t => modify (with_timer (Some (f t)))
  | None => raise AttributeError
  end.

(** *** The methods of the class, in source order *)

(** [firstFrame] *)
Definition firstFrame : M string :=
  let! frames := get _frames in
  match frames with
  | f :: _ => ret f
  | [] => ret ""
  end.

(** [naturalSortItems(self._frames)]: sorts the attribute in place. *)
Definition sort_frames : M unit :=
  let! frames := get _frames in
  let! sorted := lift (naturalSortItems frames) in
  modify (with_frames sorted).

(** The inner [setBytes] of [setZipfile]. Opening the buffer in mode
    ['a'] appends to the archive it holds, or starts one in a buffer
    without bytes; closing it leaves an archive behind even when
    nothing was written. *)
Definition setBytes (fs : FileSystem) (zip_file : string) : M unit :=
  match open_zip fs zip_file with
  | None => raise BadZipFile
  | Some zf =>
      modify (with_frames (namelist zf)) ;;
      let! frames := get _frames in
      let! addr := get _bytes in
      let! st := get store in
      match st !! addr with
      | None => raise ValueError
      | Some mem =>
          if closed mem then raise ValueError
          else
            let! written :=
              lift (omap (fun name_file =>
                      match read_member zf name_file with
                      | Some data => Return (name_file, data)
                      | None => Raise KeyError
                      end) frames) in
            let ms := (default [] (archive mem) ++ written)%list in
            modify (with_store
                      (<[addr := {| closed := false; archive := Some ms |}]>
                         st)) ;;
            modify (with_bytes_read
                      (Some {| fp := addr; NameToInfo := namelist ms |}))
      end
  end.

(** [setZipfile] *)
Definition setZipfile (fs : FileSystem) (zip_sequence : string) : M unit :=
  modify (with_dirname (Some zip_sequence)) ;;
  setBytes fs zip_sequence ;;
  sort_frames.

(** [setDirname] *)
Definition setDirname (fs : FileSystem) (dirname : string) : M unit :=
  modify (with_dirname (Some dirname)) ;;
  when (isdir fs dirname)
    (modify (with_frames
               (map (fun filename => (dirname ++ "/" ++ filename)%string)
                    (listdir fs dirname))) ;;
     sort_frames).

(** [setPath] *)
Definition setPath (fs : FileSystem) (path : string) : M unit :=
  if is_zipfile fs path then setZipfile fs path
  else if isfile fs path then
    modify (with_frame 0) ;;
    modify (with_frames [path])
  else if isdir fs path then setDirname fs path
  else ret tt.

(** [dirname] *)
Definition dirname : M (option string) := get _dirname.

(** [reset] *)
Definition reset : M unit :=
  let! timer := get _timer in
  when (negb (bool_decide (is_Some timer)))
    (modify (with_timer (Some QTimer_new)) ;;
     timer_call (QTimer_setSingleShot false)) ;;
  let! paused := get _paused in
  when (negb paused)
    (bytes_close ;;
     bytes_renew ;;
     modify (with_bytes_read None) ;;
     modify (with_frame 0)) ;;
  timer_call QTimer_stop.

(** [pause] *)
Definition pause : M unit :=
  modify (with_paused true) ;;
  timer_call QTimer_stop.

(** [paused] *)
Definition paused : M bool := get _paused.

(** [resume] *)
Definition resume : M unit :=
  let! paused := get _paused in
  when paused
    (modify (with_paused false) ;;
     timer_call (QTimer_start None)).

(** [stop] *)
Definition stop : M unit :=
  bytes_close ;;
  bytes_renew ;;
  modify (with_bytes_read None) ;;
  timer_call QTimer_stop.

(** [float(n)] for a Python integer raises [OverflowError] when [n],
    rounded to the nearest double, is out of range. *)
Definition float_overflows (n : Z) : bool :=
  2 ^ 1024 - 2 ^ 970 <=? Z.abs n.

(** [start]. [1000.0 / self._fps] converts [_fps] to a float and
    divides. [QTimer.start] takes whole milliseconds: the quotient
    arrives truncated towards zero, which for an integer [_fps] is
    [Z.quot 1000 _fps]. *)
Definition start (fs : FileSystem) : M unit :=
  reset ;;
  let! d := get _dirname in
  when (truthy d) (setPath fs (default "" d)) ;;
  let! timer := get _timer in
  when (bool_decide (is_Some timer))
    (let! fps := get _fps in
     if float_overflows fps then raise OverflowError
     else if fps =? 0 then raise ZeroDivisionError
     else timer_call (QTimer_start (Some (Z.quot 1000 fps)))).

(** [frames] *)
Definition frames : M (list string) := get _frames.

(** [frameCount] *)
Definition frameCount : M Z :=
  get (fun w => Z.of_nat (length (_frames w))).

(** [currentFrameNumber] *)
Definition currentFrameNumber : M Z := get _frame.

(** [jumpToFrame] *)
Definition jumpToFrame (frame : Z) : M unit :=
  let! count := frameCount in
  let frame := if frame >=? count then 0 else frame in
  modify (with_frame frame) ;;
  emit frame.

(** [_frameChanged], the slot of the timer's [timeout] signal. *)
Definition _frameChanged : M unit :=
  let! frames := get _frames in
  match frames with
  | [] => ret tt
  | _ :: _ =>
      let! frame := get _frame in
      let frame := frame + 1 in
      jumpToFrame frame
  end.

(** [percent]. [float(a) / b] with [b = 0] raises [ZeroDivisionError]. *)
Definition percent : M Q :=
  let! frames := get _frames in
  let! frame := get _frame in
  let len := Z.of_nat (length frames) in
  if len =? frame + 1 then ret 1%Q
  else if len =? 0 then raise ZeroDivisionError
  else ret (inject_Z (len + frame) / inject_Z len - 1)%Q.

(** [currentFilename] *)
Definition currentFilename : M (option string) :=
  try_except
    (let! frames := get _frames in
     let! i := currentFrameNumber in
     let! f := lift (getitem frames i) in
     ret (Some f))
    IndexError
    (ret None).

(** [self._bytes_read.read(self.currentFilename())], the archive branch
    of [currentPixmap]: the handle may be [None], its buffer may be
    closed, and a name that is no member raises [KeyError]. *)
Definition archive_read : M (list byte) :=
  let! handle := get _bytes_read in
  match handle with
  | None => raise AttributeError
  | Some zf =>
      let! name := currentFilename in
      let! st := get store in
      match name with
      | None => raise KeyError
      | Some n =>
          if negb (existsb (String.eqb n) (NameToInfo zf)) then raise KeyError
          else
            match st !! fp zf with
            | None => raise ValueError
            | Some mem =>
                if closed mem then raise ValueError
                else match read_member (default [] (archive mem)) n with
                     | Some data => ret data
                     | None => raise KeyError
                     end
            end
      end
  end.

(** The test of [currentPixmap]:
    [self._dirname and is_zipfile(self._dirname)]. *)
Definition archive_backed (fs : FileSystem) (w : World) : bool :=
  truthy (_dirname w) && is_zipfile fs (default "" (_dirname w)).

(** [currentPixmap] *)
Definition currentPixmap (fs : FileSystem) : M QPixmap :=
  let! w := get id in
  if archive_backed fs w then
    let! read := archive_read in
    ret (LoadedFromData read)
  else
    let! name := currentFilename in
    ret (LoadedFromFile name).

(** [__init__(path)]: the attributes of a new instance, one open empty
    [BytesIO] in the store, then [setPath] when [path] is true. *)
Definition new_world : World :=
  {| _fps := DEFAULT_FPS; _timer := None; _frame := 0; _frames := [];
     _dirname := None; _paused := false; _bytes := 0%nat;
     _bytes_read := None; store := [BytesIO_new]; frameChanged := [] |}.

Definition init (fs : FileSystem) (path : option string)
  : outcome unit * World :=
  when (truthy path) (setPath fs (default "" path)) new_world.

(** *** The invariant of the playback state *)

(** [0 <= currentIndex < frameCount()] whenever there are frames. *)
Definition index_in_range (w : World) : Prop :=
  _frames w <> [] -> 0 <= _frame w < Z.of_nat (length (_frames w)).

(** What a setter leaves alone: the index, the paused flag, the timer,
    the frame rate, the address of the buffer and the signal log. *)
Definition same_playback (w w' : World) : Prop :=
  _frame w' = _frame w /\ _paused w' = _paused w /\ _timer w' = _timer w
  /\ _fps w' = _fps w /\ _bytes w' = _bytes w
  /\ frameChanged w' = frameChanged w.

(** Whether the periodic callback is running. *)
Definition callback_running (w : World) : bool :=
  match _timer w with
  | Some t => isActive t
  | None => false
  end.

End ImageSequence.

(* ===================================================================== *)
(** ** Sample inputs *)
(* ===================================================================== *)

Module Samples.

Import ImageSequence.

(** A disk with an archive of two frames, a directory of three frames
    and a single image. *)
Definition disk : FileSystem :=
  {| is_zipfile := fun p => String.eqb p "seq.zip";
     isfile := fun p => String.eqb p "seq.zip" || String.eqb p "thumb.png";
     isdir := fun p => String.eqb p "seq";
     listdir := fun p =>
       if String.eqb p "seq" then ["f2"; "f10"; "f1"] else [];
     open_zip := fun p =>
       if String.eqb p "seq.zip"
       then Some [("b.png", [x01; x02]); ("a.png", [x03])]
       else None |}.

(** An instance made for a path of [disk]. *)
Definition loaded (path : string) : World := snd (init disk (Some path)).

(** An instance with the given frames and index. *)
Definition at_frame (frames : list string) (frame : Z) : World :=
  with_frame frame (with_frames frames new_world).

(** An instance on the archive, after [start] and then [n] ticks. *)
Fixpoint ticks (n : nat) (w : World) : World :=
  match n with
  | O => w
  | S n' => after _frameChanged (ticks n' w)
  end.

Definition playing (path : string) (n : nat) : World :=
  ticks n (after (start disk) (loaded path)).

(** SUPERSCRIPT TWO, U+00B2, and the frame name [f1] followed by it. *)
Definition superscript_two : ascii := ascii_of_nat 178.

Definition f1_squared : string :=
  String "f" (String "1" (String superscript_two "")).

(** A disk whose directory [odd] holds a file named [1] followed by
    SUPERSCRIPT TWO. *)
Definition one_squared : string := String "1" (String superscript_two "").

Definition odd_disk : FileSystem :=
  {| is_zipfile := fun _ => false;
     isfile := fun _ => false;
     isdir := fun p => String.eqb p "odd";
     listdir := fun p =>
       if String.eqb p "odd" then ["f2"; one_squared; "f1"] else [];
     open_zip := fun _ => None |}.

End Samples.

(* ===================================================================== *)
(** ** Playback: frame index, notification, position *)
(* ===================================================================== *)

Module PlaybackFacts.

Import ImageSequence.
Local Open Scope py_scope.
Local Open Scope list_scope.

(** Unfolds a method down to the world it builds. *)
Ltac run :=
  unfold result, after, jumpToFrame, _frameChanged, percent, frameCount,
    currentFilename, currentFrameNumber, emit, try_except, when,
    bind, ret, raise, lift, get, modify; cbn.

Lemma jumpToFrame_eq (i : Z) (w : World) :
  jumpToFrame i w =
    let frame := if i >=? Z.of_nat (length (_frames w)) then 0 else i in
    (Return tt,
     with_frameChanged (frameChanged w ++ [frame]) (with_frame frame w)).
Proof. reflexivity. Qed.

(** C1, as stated, fails: an index below the range of a 32-bit C int is
    stored as it is, and the [Signal(int)] notification does not carry
    it. *)
Lemma jumpToFrame_below_int_range :
  ~ (forall (w : World) (i : Z),
        let w' := after (jumpToFrame i) w in
        exists v : Z,
          frameChanged w' = frameChanged w ++ [v]
          /\ Signal_int v = Some (_frame w')).
Proof.
  intros H. destruct (H new_world (- 2 ^ 31 - 1)) as (v & Hlog & Hv).
  injection Hlog as <-. discriminate Hv.
Qed.

(** C1, amended. For an index [i] in the range of a 32-bit C int,
    [jumpToFrame(i)] returns normally; it sets [currentIndex] to 0 when
    [i >= frameCount()] and to [i] otherwise, emits exactly one
    [frameChanged] notification, which carries the new index, and
    leaves the frame list alone. For a sequence of length [L],
    [jumpToFrame(L)] leaves the index at 0. *)
Theorem jumpToFrame_wraps_once (w : World) (i : Z) :
  - 2 ^ 31 <= i < 2 ^ 31 ->
  let count := Z.of_nat (length (_frames w)) in
  let w' := after (jumpToFrame i) w in
  result (jumpToFrame i) w = Return tt
  /\ _frame w' = (if decide (count <= i) then 0 else i)
  /\ (exists v : Z,
         frameChanged w' = frameChanged w ++ [v]
         /\ Signal_int v = Some (_frame w'))
  /\ _frames w' = _frames w
  /\ _frame (after (jumpToFrame count) w) = 0.
Proof.
  intros Hi count w'. subst w'. unfold result, after.
  rewrite !jumpToFrame_eq. cbn. fold count.
  assert (Hsel : (if i >=? count then 0 else i)
                 = if decide (count <= i) then 0 else i).
  { destruct (decide (count <= i)), (Z.geb_spec i count);
      try reflexivity; lia. }
  assert (Hfit : Signal_int (if i >=? count then 0 else i)
                 = Some (if i >=? count then 0 else i)).
  { unfold Signal_int.
    destruct (i >=? count).
    - reflexivity.
    - destruct (Z.leb_spec (- 2 ^ 31) i), (Z.ltb_spec i (2 ^ 31));
        try reflexivity; lia. }
  split; [reflexivity |]. split; [exact Hsel |].
  split; [eexists; split; [reflexivity | exact Hfit] |].
  split; [reflexivity |].
  destruct (Z.geb_spec count count); [reflexivity | lia].
Qed.

Lemma jumpToFrame_wraps_once_witness :
  let w := Samples.loaded "seq" in
  - 2 ^ 31 <= 3 < 2 ^ 31
  /\ result (jumpToFrame 3) w = Return tt
  /\ _frame (after (jumpToFrame 3) w) = 0
  /\ frameChanged (after (jumpToFrame 3) w) = [0]
  /\ Signal_int 0 = Some 0.
Proof.
  intros w.
  assert (Hi : - 2 ^ 31 <= 3 < 2 ^ 31) by lia.
  destruct (jumpToFrame_wraps_once w 3 Hi) as (Hr & Hf & _).
  split; [exact Hi |]. split; [exact Hr |]. split; [exact Hf |].
  split; reflexivity.
Defined.

Lemma getitem_nil {A} (i : Z) : getitem ([] : list A) i = Raise IndexError.
Proof.
  unfold getitem. cbn [length]. change (Z.of_nat 0) with 0.
  set (j := if i <? 0 then i + 0 else i).
  destruct (Z.ltb_spec j 0); cbn; [reflexivity |].
  destruct (Z.leb_spec 0 j); [reflexivity | lia].
Qed.

(** On an empty sequence [currentFilename] catches the [IndexError]
    of the lookup and returns [None], whatever the index. *)
Lemma currentFilename_empty (w : World) :
  _frames w = [] -> currentFilename w = (Return None, w).
Proof.
  intros He. run. rewrite He, getitem_nil. reflexivity.
Qed.

(** On an empty sequence [jumpToFrame] with an index that is not
    negative sets the index to 0 and emits it. *)
Lemma jumpToFrame_empty (w : World) (i : Z) :
  _frames w = [] -> 0 <= i ->
  jumpToFrame i w =
    (Return tt, with_frameChanged (frameChanged w ++ [0]) (with_frame 0 w)).
Proof.
  intros He Hi. rewrite jumpToFrame_eq, He. cbn.
  change (Z.of_nat 0) with 0.
  destruct (Z.geb_spec i 0); [reflexivity | lia].
Qed.

(** On an empty sequence [percent] divides by zero, unless the index
    is -1. *)
Lemma percent_empty (w : World) :
  _frames w = [] -> _frame w <> -1 ->
  percent w = (Raise ZeroDivisionError, w).
Proof.
  intros He Hf. run. rewrite He. cbn.
  change (Z.of_nat 0) with 0.
  destruct (Z.eqb_spec 0 (_frame w + 1)); [lia | reflexivity].
Qed.

(** C2, at the instance [ImageSequence(None)]: the sequence is empty,
    [jumpToFrame(0)] and [currentFilename()] behave as the claim says,
    and [percent()] raises [ZeroDivisionError]. *)
Theorem percent_raises_on_empty_sequence :
  _frames new_world = []
  /\ jumpToFrame 0 new_world
     = (Return tt, with_frameChanged [0] (with_frame 0 new_world))
  /\ currentFilename new_world = (Return None, new_world)
  /\ percent new_world = (Raise ZeroDivisionError, new_world).
Proof. repeat split. Qed.

Lemma ratio_of_index (n i : Z) :
  0 < n -> 0 <= i < n - 1 ->
  (inject_Z (n + i) / inject_Z n - 1 == inject_Z i / inject_Z n
   /\ 0 <= inject_Z (n + i) / inject_Z n - 1
   /\ inject_Z (n + i) / inject_Z n - 1 < 1)%Q.
Proof.
  intros Hn Hi.
  assert (Hne : ~ (inject_Z n == 0)%Q) by (unfold Qeq; cbn; lia).
  assert (Heq : (inject_Z (n + i) / inject_Z n - 1
                 == inject_Z i / inject_Z n)%Q).
  { rewrite inject_Z_plus. field. exact Hne. }
  split; [exact Heq |]. rewrite Heq.
  destruct n as [| p | p]; try lia.
  unfold Qdiv, Qinv, Qmult, Qle, Qlt, inject_Z; cbn.
  split; nia.
Qed.

(** C3. With at least one frame and the index in range, [percent()]
    changes nothing and returns exactly 1 on the last frame; on any
    other frame it returns [(frameCount() + currentIndex) /
    frameCount() - 1], which lies in [0, 1) and equals [currentIndex /
    frameCount()]. The division is the exact one of the rationals. *)
Theorem percent_position (w : World) :
  let count := Z.of_nat (length (_frames w)) in
  0 < count ->
  0 <= _frame w < count ->
  after percent w = w
  /\ if decide (_frame w = count - 1)
     then result percent w = Return 1%Q
     else exists q : Q,
         result percent w = Return q
         /\ q = (inject_Z (count + _frame w) / inject_Z count - 1)%Q
         /\ (0 <= q)%Q /\ (q < 1)%Q
         /\ (q == inject_Z (_frame w) / inject_Z count)%Q.
Proof.
  intros count Hc Hf. run. fold count.
  destruct (decide (_frame w = count - 1)) as [Hl | Hnl].
  - destruct (Z.eqb_spec count (_frame w + 1)); [split; reflexivity | lia].
  - destruct (Z.eqb_spec count (_frame w + 1)); [lia |].
    destruct (Z.eqb_spec count 0); [lia |].
    split; [reflexivity |].
    eexists; split; [reflexivity |]. split; [reflexivity |].
    destruct (ratio_of_index count (_frame w)) as (He & H0 & H1);
      [lia | lia | auto].
Qed.

Lemma percent_position_witness :
  let w := Samples.at_frame ["f1"; "f2"; "f3"; "f4"] 1 in
  0 < Z.of_nat (length (_frames w))
  /\ 0 <= _frame w < Z.of_nat (length (_frames w))
  /\ exists q : Q, result percent w = Return q /\ (q == 1 # 4)%Q.
Proof.
  intros w.
  assert (Hc : 0 < Z.of_nat (length (_frames w))) by (cbn; lia).
  assert (Hf : 0 <= _frame w < Z.of_nat (length (_frames w))) by (cbn; lia).
  split; [exact Hc |]. split; [exact Hf |].
  destruct (percent_position w Hc Hf) as [_ H].
  cbn in H. destruct H as (q & Hq & _ & _ & _ & He).
  exists q. split; [exact Hq |]. rewrite He. reflexivity.
Defined.

End PlaybackFacts.

(* ===================================================================== *)
(** ** Life cycle: stop, reset, pause, resume *)
(* ===================================================================== *)

Module LifecycleFacts.

Import ImageSequence.
Local Open Scope py_scope.
Local Open Scope list_scope.

(** The store after [self._bytes.close(); self._bytes = BytesIO()]. *)
Lemma store_after_release (st : list BytesIO) (a : nat) :
  is_Some (st !! a) ->
  let st' := alter BytesIO_close a st ++ [BytesIO_new] in
  st' !! a = Some {| closed := true; archive := None |}
  /\ length st <> a
  /\ st' !! length st = Some BytesIO_new.
Proof.
  intros Hs st'. subst st'.
  pose proof (lookup_lt_is_Some_1 _ _ Hs) as Hlt.
  destruct Hs as [b Hb].
  repeat split.
  - rewrite lookup_app_l by (rewrite length_alter; exact Hlt).
    rewrite list_lookup_alter_eq, Hb. reflexivity.
  - lia.
  - apply list_lookup_middle. rewrite length_alter. reflexivity.
Qed.

Lemma stop_eq (w : World) :
  stop w =
    let w1 :=
      with_bytes_read None
        (with_bytes (length (store w))
           (with_store
              (alter BytesIO_close (_bytes w) (store w) ++ [BytesIO_new])
              w)) in
    match _timer w with
    | Some t => (Return tt, with_timer (Some (QTimer_stop t)) w1)
    | None => (Raise AttributeError, w1)
    end.
Proof.
  unfold stop, timer_call, bind, bytes_close, bytes_renew, modify, get,
    raise, with_timer, with_bytes_read, with_bytes, with_store.
  cbn. rewrite length_alter. destruct (_timer w); reflexivity.
Qed.

(** [currentFilename] never raises and leaves the world alone. *)
Lemma currentFilename_eq (w : World) :
  currentFilename w =
    (Return match getitem (_frames w) (_frame w) with
            | Return f => Some f
            | Raise _ => None
            end, w).
Proof.
  unfold currentFilename, try_except, currentFrameNumber, bind, lift, get,
    ret. cbn.
  unfold getitem.
  destruct ((_ <? 0) || _); [reflexivity |].
  destruct (_ !! _); reflexivity.
Qed.

(** C6. [stop()], paused or not: the buffer [_bytes] referred to is
    closed and emptied, [_bytes] is a new empty buffer at another
    address, the read handle is gone and the periodic callback does not
    run; the index, the frame list, the paused flag and the recorded
    path are as before. A frame read from the archive then raises
    [AttributeError], and so does [currentPixmap()] of an
    archive-backed sequence: nothing is read from the old buffer. The
    call itself raises [AttributeError], after these effects, when no
    timer was ever created. *)
Theorem stop_releases (fs : FileSystem) (w : World) :
  is_Some (store w !! _bytes w) ->
  let w' := after stop w in
  result stop w = match _timer w with
                  | Some _ => Return tt
                  | None => Raise AttributeError
                  end
  /\ store w' !! _bytes w = Some {| closed := true; archive := None |}
  /\ _bytes w' <> _bytes w
  /\ store w' !! _bytes w' = Some BytesIO_new
  /\ _bytes_read w' = None
  /\ callback_running w' = false
  /\ _frame w' = _frame w
  /\ _frames w' = _frames w
  /\ _paused w' = _paused w
  /\ _dirname w' = _dirname w
  /\ result archive_read w' = Raise AttributeError
  /\ result (currentPixmap fs) w' =
       if archive_backed fs w' then Raise AttributeError
       else Return (LoadedFromFile
                      match getitem (_frames w) (_frame w) with
                      | Return f => Some f
                      | Raise _ => None
                      end).
Proof.
  intros Hs w'. subst w'.
  destruct (store_after_release _ _ Hs) as (Hold & Hne & Hnew).
  unfold result, after. rewrite stop_eq. cbn zeta.
  assert (Hpix : forall w1 : World,
             _bytes_read w1 = None ->
             _frames w1 = _frames w -> _frame w1 = _frame w ->
             result (currentPixmap fs) w1 =
               if archive_backed fs w1 then Raise AttributeError
               else Return (LoadedFromFile
                              match getitem (_frames w) (_frame w) with
                              | Return f => Some f
                              | Raise _ => None
                              end)).
  { intros w1 Hr Hfs Hf. unfold result, currentPixmap, bind, get. cbn.
    destruct (archive_backed fs w1).
    - unfold archive_read, bind, get, raise. cbn. rewrite Hr. reflexivity.
    - rewrite currentFilename_eq, Hfs, Hf. reflexivity. }
  destruct (_timer w) as [t |] eqn:Ht; cbn [fst snd];
    repeat split; try assumption; try (apply Hpix; reflexivity).
  unfold callback_running. cbn. rewrite Ht. reflexivity.
Qed.

Lemma stop_releases_witness :
  let w := Samples.playing "seq.zip" 1 in
  is_Some (store w !! _bytes w)
  /\ archive_backed Samples.disk (after stop w) = true
  /\ result (currentPixmap Samples.disk) w
     = Return (LoadedFromData [x01; x02])
  /\ result (currentPixmap Samples.disk) (after stop w)
     = Raise AttributeError.
Proof.
  intros w.
  assert (Hs : is_Some (store w !! _bytes w)) by (eexists; reflexivity).
  split; [exact Hs |]. split; [reflexivity |]. split; [reflexivity |].
  destruct (stop_releases Samples.disk w Hs)
    as (_ & _ & _ & _ & _ & _ & _ & _ & _ & _ & _ & H).
  exact H.
Defined.

(** Unfolds the life-cycle methods down to the record they build. *)
Ltac unfold_lifecycle :=
  unfold result, after, reset, pause, resume, stop, timer_call, when,
    bytes_close, bytes_renew, bind, ret, raise, get, modify,
    callback_running,
    with_timer, with_bytes_read, with_bytes, with_store, with_frame,
    with_paused;
  cbn.

(** [pause()] sets the flag and halts the callback; buffers, handle
    and index stay. *)
Lemma pause_keeps_buffers (w : World) :
  let w' := after pause w in
  _paused w' = true
  /\ callback_running w' = false
  /\ store w' = store w /\ _bytes w' = _bytes w
  /\ _bytes_read w' = _bytes_read w
  /\ _frame w' = _frame w /\ _frames w' = _frames w.
Proof.
  destruct w as [fps [t |] frame fs dir p addr handle st log];
    unfold_lifecycle; tauto.
Qed.

(** C7. [reset()] never raises and always leaves a timer that does not
    run. When the instance is not paused, the buffer [_bytes] referred
    to is closed and emptied, [_bytes] is a new empty buffer, the read
    handle is cleared and the index is 0; when it is paused, store,
    buffer, handle and index are untouched. Hence [pause(); reset();
    resume()] on a started instance ends with the callback running
    on the same index, the same buffer and the same handle. *)
Theorem reset_respects_pause (w : World) :
  is_Some (store w !! _bytes w) ->
  let w' := after reset w in
  result reset w = Return tt
  /\ is_Some (_timer w')
  /\ callback_running w' = false
  /\ _frames w' = _frames w
  /\ _paused w' = _paused w
  /\ (if _paused w
      then store w' = store w /\ _bytes w' = _bytes w
           /\ _bytes_read w' = _bytes_read w /\ _frame w' = _frame w
      else store w' !! _bytes w = Some {| closed := true; archive := None |}
           /\ _bytes w' <> _bytes w
           /\ store w' !! _bytes w' = Some BytesIO_new
           /\ _bytes_read w' = None
           /\ _frame w' = 0)
  /\ match _timer w with
     | None => result (pause ;; reset ;; resume) w = Raise AttributeError
     | Some _ =>
         let w3 := after (pause ;; reset ;; resume) w in
         result (pause ;; reset ;; resume) w = Return tt
         /\ callback_running w3 = true
         /\ _paused w3 = false
         /\ store w3 = store w /\ _bytes w3 = _bytes w
         /\ _bytes_read w3 = _bytes_read w
         /\ _frame w3 = _frame w /\ _frames w3 = _frames w
     end.
Proof.
  intros Hs w'. subst w'.
  destruct (store_after_release _ _ Hs) as (Hold & Hne & Hnew).
  destruct w as [fps [t |] frame fs dir [|] addr handle st log];
    cbn in Hs, Hold, Hne, Hnew;
    unfold_lifecycle; rewrite ?length_alter;
    repeat split; eauto.
Qed.

Lemma reset_respects_pause_witness :
  let w := after pause (Samples.playing "seq.zip" 1) in
  is_Some (store w !! _bytes w)
  /\ _paused w = true
  /\ _frame (after reset w) = 1
  /\ result (currentPixmap Samples.disk) (after reset w)
     = Return (LoadedFromData [x01; x02]).
Proof.
  intros w.
  assert (Hs : is_Some (store w !! _bytes w)) by (eexists; reflexivity).
  split; [exact Hs |]. split; [reflexivity |].
  destruct (reset_respects_pause w Hs) as (_ & _ & _ & _ & _ & H & _).
  change (_paused w) with true in H. cbv iota in H.
  destruct H as (_ & _ & _ & Hf).
  split; [rewrite Hf; reflexivity | reflexivity].
Defined.

End LifecycleFacts.

(* ===================================================================== *)
(** ** Sequence source: setPath, setDirname, setZipfile, dirname *)
(* ===================================================================== *)

Module SourceFacts.

Import ImageSequence.
Local Open Scope py_scope.
Local Open Scope list_scope.

Lemma same_playback_refl (w : World) : same_playback w w.
Proof. unfold same_playback. tauto. Qed.

Lemma same_playback_trans (w1 w2 w3 : World) :
  same_playback w1 w2 -> same_playback w2 w3 -> same_playback w1 w3.
Proof. unfold same_playback. intuition congruence. Qed.

Lemma sort_frames_keeps (w : World) :
  same_playback w (after sort_frames w)
  /\ _dirname (after sort_frames w) = _dirname w.
Proof.
  unfold same_playback, after, sort_frames, bind, lift, get, modify. cbn.
  destruct (NaturalOrdering.naturalSortItems (_frames w)); cbn; tauto.
Qed.

Lemma setBytes_keeps (fs : FileSystem) (zip_file : string) (w : World) :
  same_playback w (after (setBytes fs zip_file) w)
  /\ _dirname (after (setBytes fs zip_file) w) = _dirname w.
Proof.
  unfold same_playback, after, setBytes.
  destruct (open_zip fs zip_file) as [zf |]; [| cbn; tauto].
  unfold bind, lift, get, modify, raise. cbn.
  destruct (store w !! _bytes w) as [mem |]; [| cbn; tauto].
  destruct (closed mem); [cbn; tauto |].
  destruct (omap _ _); cbn; tauto.
Qed.

Lemma after_bind {A B} (m : M A) (k : A -> M B) (w : World) :
  after (bind m k) w =
    match result m w with
    | Return a => after (k a) (after m w)
    | Raise _ => after m w
    end.
Proof.
  unfold after, result, bind. destruct (m w) as [[a | e] w1]; reflexivity.
Qed.

Lemma setZipfile_keeps (fs : FileSystem) (path : string) (w : World) :
  same_playback w (after (setZipfile fs path) w)
  /\ _dirname (after (setZipfile fs path) w) = Some path.
Proof.
  unfold setZipfile. rewrite after_bind.
  change (result (modify (with_dirname (Some path))) w) with (Return tt).
  set (w1 := after (modify (with_dirname (Some path))) w).
  rewrite after_bind.
  assert (H1 : same_playback w w1)
    by (unfold same_playback, w1; cbn; tauto).
  pose proof (setBytes_keeps fs path w1) as [Hb Hd].
  destruct (result (setBytes fs path) w1).
  - pose proof (sort_frames_keeps (after (setBytes fs path) w1)) as [Hs Hd'].
    rewrite Hd', Hd. split; [| reflexivity].
    eauto using same_playback_trans.
  - rewrite Hd. split; [| reflexivity].
    eauto using same_playback_trans.
Qed.

Lemma setDirname_keeps (fs : FileSystem) (path : string) (w : World) :
  same_playback w (after (setDirname fs path) w)
  /\ _dirname (after (setDirname fs path) w) = Some path.
Proof.
  unfold setDirname. rewrite after_bind.
  change (result (modify (with_dirname (Some path))) w) with (Return tt).
  set (w1 := after (modify (with_dirname (Some path))) w).
  unfold when. destruct (isdir fs path).
  - rewrite after_bind.
    match goal with
    | |- context [result ?m w1] => change (result m w1) with (Return tt)
    end.
    match goal with
    | |- context [after sort_frames ?w2] =>
        pose proof (sort_frames_keeps w2) as [Hs Hd];
        assert (H2 : same_playback w w2)
          by (unfold same_playback, w1; cbn; tauto)
    end.
    rewrite Hd. split; [| reflexivity].
    eauto using same_playback_trans.
  - split; [unfold same_playback, w1; cbn; tauto | reflexivity].
Qed.

(** C5, as stated, fails: an unsupported path given to an instance
    that already has a frame leaves that frame in place. *)
Lemma setPath_unsupported_keeps_frames :
  ~ (forall (fs : FileSystem) (w : World) (path : string),
        is_zipfile fs path = false ->
        isfile fs path = false ->
        isdir fs path = false ->
        result (setPath fs path) w = Return tt
        /\ result frameCount (after (setPath fs path) w) = Return 0).
Proof.
  intros H.
  destruct (H Samples.disk (Samples.loaded "thumb.png") "missing"
              eq_refl eq_refl eq_refl) as [_ Hc].
  discriminate Hc.
Qed.

(** C5, amended. For a path that is no archive, no file and no
    directory, [setPath] raises nothing and leaves the instance as it
    was, so [frameCount()] keeps its value; an instance constructed on
    such a path has no frames. *)
Theorem setPath_unsupported_is_noop
    (fs : FileSystem) (w : World) (path : string) :
  is_zipfile fs path = false ->
  isfile fs path = false ->
  isdir fs path = false ->
  setPath fs path w = (Return tt, w)
  /\ result frameCount (after (setPath fs path) w) = result frameCount w
  /\ init fs (Some path) = (Return tt, new_world)
  /\ result frameCount (snd (init fs (Some path))) = Return 0.
Proof.
  intros Hz Hf Hd.
  assert (Hn : setPath fs path = ret tt).
  { unfold setPath. rewrite Hz, Hf, Hd. reflexivity. }
  assert (Hi : init fs (Some path) = (Return tt, new_world)).
  { unfold init, when. destruct path as [| c path']; [reflexivity |].
    change (default "" (Some (String c path'))) with (String c path').
    rewrite Hn. reflexivity. }
  unfold after. rewrite Hi, Hn. repeat split.
Qed.

Lemma setPath_unsupported_is_noop_witness :
  let w := Samples.loaded "seq" in
  is_zipfile Samples.disk "missing" = false
  /\ isfile Samples.disk "missing" = false
  /\ isdir Samples.disk "missing" = false
  /\ setPath Samples.disk "missing" w = (Return tt, w)
  /\ result frameCount w = Return 3.
Proof.
  intros w.
  destruct (setPath_unsupported_is_noop Samples.disk w "missing"
              eq_refl eq_refl eq_refl) as (Hnoop & _).
  do 3 (split; [reflexivity |]).
  split; [exact Hnoop | reflexivity].
Defined.

(** C8, as stated, fails: [setPath] on a single file does not record
    the path. *)
Lemma setPath_file_leaves_dirname :
  ~ (forall (fs : FileSystem) (w : World) (path : string),
        is_zipfile fs path = false ->
        isfile fs path = true ->
        result (setPath fs path) w = Return tt ->
        result dirname (after (setPath fs path) w) = Return (Some path)).
Proof.
  intros H.
  specialize (H Samples.disk new_world "thumb.png" eq_refl eq_refl eq_refl).
  discriminate H.
Qed.

(** C8, amended. After [setDirname(path)] and after [setZipfile(path)],
    called directly or through [setPath], and whether or not the call
    raised, [dirname()] returns [path]. [setPath] on a single file,
    like [setPath] on an unsupported path, leaves [dirname()] as it
    was. *)
Theorem dirname_after_setters (fs : FileSystem) (w : World) (path : string) :
  result dirname (after (setDirname fs path) w) = Return (Some path)
  /\ result dirname (after (setZipfile fs path) w) = Return (Some path)
  /\ result dirname (after (setPath fs path) w) =
       if is_zipfile fs path then Return (Some path)
       else if isfile fs path then result dirname w
       else if isdir fs path then Return (Some path)
       else result dirname w.
Proof.
  pose proof (setDirname_keeps fs path w) as [_ Hd].
  pose proof (setZipfile_keeps fs path w) as [_ Hz].
  unfold result, dirname, get. cbn.
  split; [congruence |]. split; [congruence |].
  unfold setPath.
  destruct (is_zipfile fs path); [congruence |].
  destruct (isfile fs path); [reflexivity |].
  destruct (isdir fs path); [congruence | reflexivity].
Qed.

End SourceFacts.

(* ===================================================================== *)
(** ** The index stays in range *)
(* ===================================================================== *)

Module InvariantFacts.

Import ImageSequence.
Local Open Scope py_scope.
Local Open Scope list_scope.

Lemma index_zero_in_range (w : World) : _frame w = 0 -> index_in_range w.
Proof.
  unfold index_in_range. intros -> Hne.
  destruct (_frames w); [congruence | cbn; lia].
Qed.

Lemma index_in_range_same (w w' : World) :
  _frame w' = _frame w -> _frames w' = _frames w ->
  index_in_range w -> index_in_range w'.
Proof. unfold index_in_range. intros -> ->. trivial. Qed.

Lemma jumpToFrame_in_range (w : World) (i : Z) :
  0 <= i -> index_in_range (after (jumpToFrame i) w).
Proof.
  intros Hi. unfold after. rewrite PlaybackFacts.jumpToFrame_eq.
  unfold index_in_range. cbn. intros Hne.
  destruct (Z.geb_spec i (Z.of_nat (length (_frames w)))); [| lia].
  destruct (_frames w); [congruence | cbn; lia].
Qed.

Lemma frameChanged_in_range (w : World) :
  index_in_range w -> index_in_range (after _frameChanged w).
Proof.
  intros Hw. unfold after, _frameChanged, bind, get. cbn.
  destruct (_frames w) as [| f fs] eqn:He; [exact Hw |].
  assert (H0 : 0 <= _frame w) by (apply Hw; rewrite He; discriminate).
  apply (jumpToFrame_in_range w (_frame w + 1)). lia.
Qed.

Lemma reset_frame (w : World) :
  _frames (after reset w) = _frames w
  /\ _frame (after reset w) = if _paused w then _frame w else 0.
Proof.
  destruct w as [fps [t |] frame fs dir [|] addr handle st log];
    LifecycleFacts.unfold_lifecycle; tauto.
Qed.

Lemma setPath_frame (fs : FileSystem) (path : string) (w : World) :
  _frame (after (setPath fs path) w) = _frame w
  \/ _frame (after (setPath fs path) w) = 0.
Proof.
  unfold setPath.
  destruct (is_zipfile fs path).
  { left. apply (SourceFacts.setZipfile_keeps fs path w). }
  destruct (isfile fs path); [right; reflexivity |].
  destruct (isdir fs path); [| left; reflexivity].
  left. apply (SourceFacts.setDirname_keeps fs path w).
Qed.

Lemma start_frame (fs : FileSystem) (w : World) :
  _paused w = false -> _frame (after (start fs) w) = 0.
Proof.
  intros Hp. unfold start.
  rewrite SourceFacts.after_bind.
  assert (H1 : _frame (after reset w) = 0).
  { rewrite (proj2 (reset_frame w)), Hp. reflexivity. }
  set (w1 := after reset w) in *.
  destruct (result reset w); [| exact H1].
  rewrite SourceFacts.after_bind.
  change (result (get _dirname) w1) with (Return (_dirname w1)).
  change (after (get _dirname) w1) with w1.
  cbv beta iota. rewrite SourceFacts.after_bind.
  assert (H2 : _frame (after (when (truthy (_dirname w1))
                                (setPath fs (default "" (_dirname w1)))) w1)
               = 0).
  { unfold when. destruct (truthy (_dirname w1)); [| exact H1].
    destruct (setPath_frame fs (default "" (_dirname w1)) w1); congruence. }
  set (w2 := after _ w1) in *.
  destruct (result _ w1); [| exact H2].
  destruct w2 as [fps [t |] frame frs dir p addr handle st log];
    cbn in H2; subst frame;
    unfold after, when, timer_call, bind, get, modify, raise; cbn;
    [destruct (float_overflows fps), (fps =? 0) |]; reflexivity.
Qed.

(** C9, as stated, fails: [jumpToFrame] with a negative argument
    stores the argument. *)
Lemma jumpToFrame_negative_out_of_range :
  ~ (forall (w : World) (i : Z),
        _frames w <> [] ->
        0 <= _frame (after (jumpToFrame i) w)
          < Z.of_nat (length (_frames (after (jumpToFrame i) w)))).
Proof.
  intros H.
  assert (Hne : _frames (Samples.at_frame ["f1"] 0) <> []) by discriminate.
  destruct (H (Samples.at_frame ["f1"] 0) (-1) Hne) as [Hlow _].
  apply Hlow. reflexivity.
Qed.

(** C9, amended. The invariant [0 <= currentIndex < frameCount()]
    (for a sequence with frames) is kept by [jumpToFrame] with an
    argument that is not negative, by the tick handler, by [reset],
    [pause], [resume] and [stop], by [setPath] on a path that is a
    single file or unsupported, and by [start] on an instance that is
    not paused. *)
Theorem index_in_range_preserved
    (fs : FileSystem) (w : World) (i : Z) (path : string) :
  index_in_range w ->
  0 <= i ->
  is_zipfile fs path || negb (isfile fs path) && isdir fs path = false ->
  index_in_range (after (jumpToFrame i) w)
  /\ index_in_range (after _frameChanged w)
  /\ index_in_range (after reset w)
  /\ index_in_range (after pause w)
  /\ index_in_range (after resume w)
  /\ index_in_range (after stop w)
  /\ index_in_range (after (setPath fs path) w)
  /\ if _paused w then True else index_in_range (after (start fs) w).
Proof.
  intros Hw Hi Hp.
  split; [apply jumpToFrame_in_range; exact Hi |].
  split; [apply frameChanged_in_range; exact Hw |].
  split.
  { destruct (reset_frame w) as [Hfs Hf].
    destruct (_paused w).
    - apply (index_in_range_same w); assumption.
    - apply index_zero_in_range; assumption. }
  split.
  { apply (index_in_range_same w); [| | exact Hw];
      apply (LifecycleFacts.pause_keeps_buffers w). }
  split.
  { apply (index_in_range_same w); [| | exact Hw];
      destruct w as [fps [t |] frame frs dir [|] addr handle st log];
      reflexivity. }
  split.
  { apply (index_in_range_same w); [| | exact Hw];
      unfold after; rewrite LifecycleFacts.stop_eq;
      destruct (_timer w); reflexivity. }
  split.
  { unfold setPath.
    destruct (is_zipfile fs path); [discriminate Hp |].
    destruct (isfile fs path); [apply index_zero_in_range; reflexivity |].
    destruct (isdir fs path); [discriminate Hp | exact Hw]. }
  destruct (_paused w) eqn:Hpa; [exact I |].
  apply index_zero_in_range, start_frame, Hpa.
Qed.

Lemma index_in_range_preserved_witness :
  let w := Samples.playing "seq" 2 in
  index_in_range w
  /\ _frame w = 2
  /\ is_zipfile Samples.disk "thumb.png"
     || negb (isfile Samples.disk "thumb.png")
        && isdir Samples.disk "thumb.png" = false
  /\ index_in_range (after (jumpToFrame 3) w)
  /\ index_in_range (after _frameChanged w)
  /\ index_in_range (after (setPath Samples.disk "thumb.png") w).
Proof.
  intros w.
  assert (Hw : index_in_range w) by (intros _; change (0 <= 2 < 3); lia).
  assert (Hi : 0 <= 3) by lia.
  destruct (index_in_range_preserved Samples.disk w 3 "thumb.png"
              Hw Hi eq_refl) as (H1 & H2 & _ & _ & _ & _ & H7 & _).
  split; [exact Hw |]. split; [reflexivity |]. split; [reflexivity |].
  split; [exact H1 |]. split; [exact H2 | exact H7].
Defined.

End InvariantFacts.

(* ===================================================================== *)
(** ** Natural ordering *)
(* ===================================================================== *)

Module NaturalOrderingFacts.

Import NaturalOrdering.
Local Open Scope list_scope.

Example re_split_frame : re_split "frame0010.png" = ["frame"; "0010"; ".png"].
Proof. reflexivity. Qed.

Example re_split_digits_only : re_split "10" = [""; "10"; ""].
Proof. reflexivity. Qed.

Example alphanum_key_frame :
  alphanum_key "frame0010.png"
  = Return [TStr "frame"; TInt 10; TStr ".png"].
Proof. reflexivity. Qed.

Example natural_sort_is_stable :
  naturalSortItems ["f2"; "f01"; "f1"; "a"; "10"; "9"]
  = Return ["9"; "10"; "a"; "f01"; "f1"; "f2"].
Proof. reflexivity. Qed.

(** *** The split *)

Lemma all_chars_app (p : ascii -> bool) (s t : string) :
  all_chars p (s ++ t)%string = all_chars p s && all_chars p t.
Proof.
  induction s as [| c s IH]; cbn; [reflexivity |].
  rewrite IH. apply andb_assoc.
Qed.

Lemma digit_run_snoc (acc : string) (c : ascii) :
  is_digit_run acc = true -> is_ascii_digit c = true ->
  is_digit_run (acc ++ String c "")%string = true.
Proof.
  destruct acc as [| a acc]; [discriminate |].
  unfold is_digit_run. intros Ha Hc.
  change ((String a acc ++ String c "")%string)
    with (String a (acc ++ String c "")%string).
  change (String a (acc ++ String c "")%string)
    with ((String a acc ++ String c "")%string).
  rewrite all_chars_app, Ha. cbn. rewrite Hc. reflexivity.
Qed.

Lemma text_run_snoc (acc : string) (c : ascii) :
  is_text_run acc = true -> is_ascii_digit c = false ->
  is_text_run (acc ++ String c "")%string = true.
Proof.
  unfold is_text_run. intros Ha Hc.
  rewrite all_chars_app, Ha. cbn. rewrite Hc. reflexivity.
Qed.

(** Whatever the scanner has read so far, it returns runs that
    alternate and end with text. *)
Lemma scan_shape (s : string) :
  forall (in_digits : bool) (acc : string),
    (if in_digits then is_digit_run acc else is_text_run acc) = true ->
    split_shape in_digits (scan in_digits acc s) = true.
Proof.
  induction s as [| c s IH]; intros b acc Hacc.
  - destruct b; cbn; rewrite Hacc; reflexivity.
  - cbn [scan]. destruct (is_ascii_digit c) eqn:Hc, b; cbn [Bool.eqb negb].
    + apply IH. apply digit_run_snoc; assumption.
    + cbn [split_shape]. rewrite Hacc. cbn [andb negb].
      apply IH. cbn. rewrite Hc. reflexivity.
    + cbn [split_shape]. rewrite Hacc. cbn [andb negb].
      apply IH. cbn. rewrite Hc. reflexivity.
    + apply IH. apply text_run_snoc; assumption.
Qed.

(** Even positions of the split hold text without a character of
    [[0-9]], odd positions hold the digit runs. *)
Lemma re_split_shape (key : string) : split_shape false (re_split key) = true.
Proof. apply scan_shape. reflexivity. Qed.

Lemma append_assoc (a b c : string) :
  ((a ++ b) ++ c)%string = (a ++ (b ++ c))%string.
Proof. induction a as [| x a IH]; cbn; [reflexivity | rewrite IH; reflexivity]. Qed.

Lemma scan_not_nil (s : string) :
  forall (in_digits : bool) (acc : string), scan in_digits acc s <> [].
Proof.
  induction s as [| c s IH]; intros b acc; cbn.
  - destruct b; discriminate.
  - destruct (Bool.eqb (is_ascii_digit c) b); [apply IH | discriminate].
Qed.

Lemma scan_join (s : string) :
  forall (in_digits : bool) (acc : string),
    String.concat "" (scan in_digits acc s) = (acc ++ s)%string.
Proof.
  induction s as [| c s IH]; intros b acc.
  - assert (Hnil : forall a : string, (a ++ "")%string = a).
    { induction a as [| x a IHa]; cbn; [| rewrite IHa]; reflexivity. }
    destruct b; cbn; rewrite !Hnil; reflexivity.
  - cbn [scan]. destruct (Bool.eqb (is_ascii_digit c) b).
    + rewrite IH, append_assoc. reflexivity.
    + change (String.concat "" (acc :: scan (negb b) (String c "") s))
        with (match scan (negb b) (String c "") s with
              | [] => acc
              | _ :: _ =>
                  (acc ++ "" ++ String.concat "" (scan (negb b) (String c "") s))
                    %string
              end).
      specialize (IH (negb b) (String c "")).
      destruct (scan (negb b) (String c "") s) as [| t l] eqn:Hs.
      * exfalso. exact (scan_not_nil s _ _ Hs).
      * rewrite IH. reflexivity.
Qed.

(** The split loses nothing: its pieces, joined, are the key. *)
Lemma re_split_join (key : string) : String.concat "" (re_split key) = key.
Proof. unfold re_split. rewrite scan_join. reflexivity. Qed.

(** *** The conversion *)

Lemma decimal_value_digit_run (s : string) :
  forall acc : Z,
    all_chars is_ascii_digit s = true ->
    exists n : Z, decimal_value acc s = Some n.
Proof.
  induction s as [| c s IH]; intros acc H; cbn in *.
  - eauto.
  - apply andb_true_iff in H as [Hc Hs]. rewrite Hc. apply IH, Hs.
Qed.

Lemma all_chars_weaken (p q : ascii -> bool) (s : string) :
  (forall c, p c = true -> q c = true) ->
  all_chars p s = true -> all_chars q s = true.
Proof.
  intros Hpq. induction s as [| c s IH]; cbn; [trivial |].
  intros [Hc Hs]%andb_true_iff. rewrite (Hpq c Hc), (IH Hs). reflexivity.
Qed.

Lemma isdigit_digit_run (d : string) :
  is_digit_run d = true -> isdigit d = true.
Proof.
  destruct d as [| c d]; [discriminate |]. unfold is_digit_run, isdigit.
  apply all_chars_weaken. intros x Hx. unfold char_isdigit. rewrite Hx.
  reflexivity.
Qed.

(** A digit run that [int] accepts for its length becomes an integer. *)
Lemma convert_digit_run (d : string) :
  is_digit_run d = true -> short d = true ->
  exists n : Z, convert d = Return (TInt n).
Proof.
  intros H Hs. unfold convert. rewrite (isdigit_digit_run d H).
  unfold int_. unfold short in Hs.
  replace (int_max_str_digits <? String.length d)%nat with false
    by (symmetry; apply Nat.ltb_ge, Nat.leb_le, Hs).
  destruct d as [| c d]; [discriminate |]. unfold is_digit_run in H.
  destruct (decimal_value_digit_run (String c d) 0 H) as [n ->].
  cbn. eauto.
Qed.

(** A digit run never stays text. *)
Lemma convert_digit_run_int (d : string) (x : token) :
  is_digit_run d = true -> convert d = Return x -> exists n : Z, x = TInt n.
Proof.
  intros H. unfold convert. rewrite (isdigit_digit_run d H).
  destruct (int_ d) as [n |]; cbn; [| discriminate].
  intros [= <-]. eauto.
Qed.

(** A text run is never turned into an integer: when [isdigit] accepts
    it, [int] rejects it. *)
Lemma convert_text_run (t : string) (x : token) :
  is_text_run t = true -> convert t = Return x -> x = TStr t.
Proof.
  unfold convert. intros Ht.
  destruct (isdigit t) eqn:Hd; [| congruence].
  destruct t as [| c t]; [discriminate Hd |].
  unfold is_text_run in Ht. cbn in Ht.
  apply andb_true_iff in Ht as [Hc _]. apply negb_true_iff in Hc.
  unfold int_. destruct (_ <? _)%nat; [discriminate |].
  cbn. rewrite Hc. cbn. discriminate.
Qed.

(** Text without a superscript digit stays text. *)
Lemma convert_plain_text_run (t : string) :
  is_text_run t = true -> plain t = true -> convert t = Return (TStr t).
Proof.
  unfold convert, is_text_run, plain. intros Ht Hp.
  destruct t as [| c t]; [reflexivity |].
  cbn in *. apply andb_true_iff in Ht as [Hc _].
  apply andb_true_iff in Hp as [Hs _].
  unfold char_isdigit.
  apply negb_true_iff in Hc, Hs. rewrite Hc, Hs. reflexivity.
Qed.

(** *** The key *)

(** A key that exists alternates texts and integers like the split it
    comes from. *)
Lemma omap_convert_shape (l : list string) :
  forall (in_digits : bool) (k : list token),
    split_shape in_digits l = true ->
    omap convert l = Return k ->
    key_shape in_digits k = true /\ length k = length l.
Proof.
  induction l as [| s l IH]; intros b k Hl Hk.
  - cbn in Hk. injection Hk as <-. split; reflexivity.
  - cbn in Hl, Hk. apply andb_true_iff in Hl as [Hs Hl].
    destruct (convert s) as [x |] eqn:Hx; [| discriminate Hk]. cbn in Hk.
    destruct (omap convert l) as [k' |] eqn:Hk'; [| discriminate Hk].
    cbn in Hk. injection Hk as <-.
    destruct (IH (negb b) k' Hl eq_refl) as [IHs IHn].
    destruct b.
    + destruct (convert_digit_run_int s x Hs Hx) as [n ->]. cbn in *.
      split; [exact IHs | congruence].
    + rewrite (convert_text_run s x Hs Hx). cbn in *.
      split; [exact IHs | congruence].
Qed.

Lemma alphanum_key_shape (key : string) (k : list token) :
  alphanum_key key = Return k ->
  key_shape false k = true /\ length k = length (re_split key).
Proof. apply omap_convert_shape, re_split_shape. Qed.

(** The key function raises nothing but [ValueError]. *)
Lemma alphanum_key_raises_only_ValueError (key : string) (e : exn) :
  alphanum_key key = Raise e -> e = ValueError.
Proof.
  unfold alphanum_key. generalize (re_split key) as l.
  induction l as [| s l IH]; cbn; [discriminate |].
  unfold convert at 1. destruct (isdigit s).
  - unfold int_. destruct (_ <? _)%nat; [cbn; congruence |].
    destruct (decimal_value 0 s); cbn.
    + destruct (omap convert l); cbn; [discriminate |].
      intros [= <-]. apply IH. reflexivity.
    + congruence.
  - cbn. destruct (omap convert l); cbn; [discriminate |].
    intros [= <-]. apply IH. reflexivity.
Qed.

Lemma scan_plain (s : string) :
  forall (in_digits : bool) (acc : string),
    plain acc = true -> plain s = true ->
    Forall (fun t => plain t = true) (scan in_digits acc s).
Proof.
  unfold plain.
  induction s as [| c s IH]; intros b acc Ha Hs.
  - destruct b; cbn; repeat constructor; assumption.
  - cbn in Hs. apply andb_true_iff in Hs as [Hc Hs].
    cbn [scan]. destruct (Bool.eqb (is_ascii_digit c) b).
    + apply IH; [| exact Hs]. rewrite all_chars_app, Ha. cbn.
      rewrite Hc. reflexivity.
    + constructor; [exact Ha |]. apply IH; [| exact Hs].
      cbn. rewrite Hc. reflexivity.
Qed.

Lemma omap_convert_plain (l : list string) :
  forall in_digits : bool,
    split_shape in_digits l = true ->
    Forall (fun t => plain t = true) l ->
    Forall (fun t => short t = true) l ->
    exists k : list token, omap convert l = Return k.
Proof.
  induction l as [| s l IH]; intros b Hl Hp Hsh; cbn.
  - eauto.
  - cbn in Hl. apply andb_true_iff in Hl as [Hs Hl].
    inversion Hp as [| ? ? Hps Hpl]; subst.
    inversion Hsh as [| ? ? Hss Hsl]; subst.
    destruct (IH (negb b) Hl Hpl Hsl) as [k' ->].
    destruct b.
    + destruct (convert_digit_run s Hs Hss) as [n ->]. cbn. eauto.
    + rewrite (convert_plain_text_run s Hs Hps). cbn. eauto.
Qed.

(** On a name without superscript digits and without a piece longer
    than [int] accepts the key is defined, its even positions are texts
    and its odd positions integers. *)
Lemma alphanum_key_plain (key : string) :
  plain key = true ->
  Forall (fun t => short t = true) (re_split key) ->
  exists k : list token,
    alphanum_key key = Return k /\ key_shape false k = true.
Proof.
  intros Hp Hsh.
  destruct (omap_convert_plain (re_split key) false (re_split_shape key))
    as [k Hk]; [| exact Hsh |].
  { apply scan_plain; [reflexivity | exact Hp]. }
  exists k. split; [exact Hk |]. apply (alphanum_key_shape key k Hk).
Qed.

Lemma alphanum_key_plain_witness :
  plain "frame0010.png" = true
  /\ exists k, alphanum_key "frame0010.png" = Return k
               /\ key_shape false k = true.
Proof.
  split; [reflexivity |]. apply (alphanum_key_plain "frame0010.png").
  - reflexivity.
  - repeat constructor.
Defined.

(** *** The order on keys *)

Lemma ascii_compare_refl (a : ascii) : Ascii.compare a a = Eq.
Proof. unfold Ascii.compare. apply N.compare_refl. Qed.

Lemma ascii_compare_lt_trans (a b c : ascii) :
  Ascii.compare a b = Lt -> Ascii.compare b c = Lt -> Ascii.compare a c = Lt.
Proof.
  unfold Ascii.compare. rewrite !N.compare_lt_iff. apply N.lt_trans.
Qed.

Lemma string_compare_refl (s : string) : String.compare s s = Eq.
Proof.
  induction s as [| c s IH]; cbn; [reflexivity |].
  rewrite ascii_compare_refl. exact IH.
Qed.

Lemma string_compare_lt_trans (a : string) :
  forall b c : string,
    String.compare a b = Lt -> String.compare b c = Lt ->
    String.compare a c = Lt.
Proof.
  induction a as [| x a IH]; intros [| y b] [| z c]; cbn;
    try discriminate; try reflexivity.
  destruct (Ascii.compare x y) eqn:Hxy; try discriminate;
    destruct (Ascii.compare y z) eqn:Hyz; try discriminate; intros Hab Hbc.
  - apply Ascii.compare_eq_iff in Hxy, Hyz. subst.
    rewrite ascii_compare_refl. eapply IH; eassumption.
  - apply Ascii.compare_eq_iff in Hxy. subst. rewrite Hyz. reflexivity.
  - apply Ascii.compare_eq_iff in Hyz. subst. rewrite Hxy. reflexivity.
  - rewrite (ascii_compare_lt_trans x y z Hxy Hyz). reflexivity.
Qed.

Lemma token_cmp_antisym (a b : token) :
  token_cmp b a = CompOpp (token_cmp a b).
Proof.
  destruct a, b; cbn; try reflexivity.
  - apply String.compare_antisym.
  - apply Z.compare_antisym.
Qed.

Lemma key_cmp_antisym (k1 : list token) :
  forall k2, key_cmp k2 k1 = CompOpp (key_cmp k1 k2).
Proof.
  induction k1 as [| a k1 IH]; intros [| b k2]; cbn; try reflexivity.
  rewrite (token_cmp_antisym a b).
  destruct (token_cmp a b); cbn; [apply IH | reflexivity | reflexivity].
Qed.

(** On keys of one shape [key_ltb] raises nothing and is the [Lt] of the
    three-way comparison. *)
Lemma key_ltb_cmp (k1 : list token) :
  forall (k2 : list token) (expect_int : bool),
    key_shape expect_int k1 = true ->
    key_shape expect_int k2 = true ->
    key_ltb k1 k2
    = Return match key_cmp k1 k2 with Lt => true | _ => false end.
Proof.
  induction k1 as [| a k1 IH]; intros [| b k2] e H1 H2; cbn;
    try reflexivity.
  destruct a as [s | m], b as [t | n]; cbn in H1, H2;
    apply andb_true_iff in H1 as [Ha H1];
    apply andb_true_iff in H2 as [Hb H2];
    try (destruct e; discriminate); cbn.
  - destruct (String.eqb_spec s t) as [-> | Hne].
    + rewrite string_compare_refl. eapply IH; eassumption.
    + unfold String.ltb. destruct (String.compare s t) eqn:Hc; try reflexivity.
      apply String.compare_eq_iff in Hc. contradiction.
  - destruct (Z.eqb_spec m n) as [-> | Hne].
    + rewrite Z.compare_refl. eapply IH; eassumption.
    + unfold Z.ltb. destruct (Z.compare m n) eqn:Hc; try reflexivity.
      apply Z.compare_eq in Hc. contradiction.
Qed.

Lemma key_cmp_eq (k1 : list token) :
  forall (k2 : list token) (expect_int : bool),
    key_shape expect_int k1 = true ->
    key_shape expect_int k2 = true ->
    key_cmp k1 k2 = Eq -> k1 = k2.
Proof.
  induction k1 as [| a k1 IH]; intros [| b k2] e H1 H2; cbn;
    try discriminate; try reflexivity.
  destruct a as [s | m], b as [t | n]; cbn in H1, H2;
    apply andb_true_iff in H1 as [Ha H1];
    apply andb_true_iff in H2 as [Hb H2];
    try (destruct e; discriminate); cbn.
  - destruct (String.compare s t) eqn:Hc; try discriminate.
    apply String.compare_eq_iff in Hc. subst. intros Hk. f_equal.
    eapply IH; eassumption.
  - destruct (Z.compare m n) eqn:Hc; try discriminate.
    apply Z.compare_eq in Hc. subst. intros Hk. f_equal.
    eapply IH; eassumption.
Qed.

Lemma key_cmp_refl (k : list token) : key_cmp k k = Eq.
Proof.
  induction k as [| a k IH]; cbn; [reflexivity |].
  destruct a; cbn; [rewrite string_compare_refl | rewrite Z.compare_refl];
    exact IH.
Qed.

Lemma key_cmp_lt_trans (k1 : list token) :
  forall (k2 k3 : list token) (expect_int : bool),
    key_shape expect_int k1 = true ->
    key_shape expect_int k2 = true ->
    key_shape expect_int k3 = true ->
    key_cmp k1 k2 = Lt -> key_cmp k2 k3 = Lt -> key_cmp k1 k3 = Lt.
Proof.
  induction k1 as [| a k1 IH]; intros [| b k2] [| c k3] e H1 H2 H3; cbn;
    try discriminate; try reflexivity.
  destruct a as [s | m], b as [t | n], c as [u | p]; cbn in H1, H2, H3;
    apply andb_true_iff in H1 as [Ha H1];
    apply andb_true_iff in H2 as [Hb H2];
    apply andb_true_iff in H3 as [Hc H3];
    try (destruct e; discriminate); cbn.
  - destruct (String.compare s t) eqn:Hst; try discriminate;
      destruct (String.compare t u) eqn:Htu; try discriminate; intros A B.
    + apply String.compare_eq_iff in Hst, Htu. subst.
      rewrite string_compare_refl. apply (IH k2 k3 true); assumption.
    + apply String.compare_eq_iff in Hst. subst. rewrite Htu. reflexivity.
    + apply String.compare_eq_iff in Htu. subst. rewrite Hst. reflexivity.
    + rewrite (string_compare_lt_trans s t u Hst Htu). reflexivity.
  - destruct (Z.compare m n) eqn:Hmn; try discriminate;
      destruct (Z.compare n p) eqn:Hnp; try discriminate; intros A B.
    + apply Z.compare_eq in Hmn, Hnp. subst.
      rewrite Z.compare_refl. apply (IH k2 k3 false); assumption.
    + apply Z.compare_eq in Hmn. subst. rewrite Hnp. reflexivity.
    + apply Z.compare_eq in Hnp. subst. rewrite Hmn. reflexivity.
    + assert (Hmp : (m ?= p) = Lt)
        by (rewrite Z.compare_lt_iff in *; lia).
      rewrite Hmp. reflexivity.
Qed.

(** [key_le] on keys of one shape: what it says about the comparison. *)
Lemma key_le_cmp (k1 k2 : list token) (expect_int : bool) :
  key_shape expect_int k1 = true ->
  key_shape expect_int k2 = true ->
  key_le k1 k2 <-> key_cmp k1 k2 <> Gt.
Proof.
  intros H1 H2. unfold key_le.
  rewrite (key_ltb_cmp k2 k1 expect_int H2 H1), (key_cmp_antisym k1 k2).
  destruct (key_cmp k1 k2); cbn; split; congruence.
Qed.

(** The order the sort uses is a total order on keys of one shape:
    reflexive, antisymmetric, transitive and total. *)
Lemma key_le_total_order (expect_int : bool) (k1 k2 k3 : list token) :
  key_shape expect_int k1 = true ->
  key_shape expect_int k2 = true ->
  key_shape expect_int k3 = true ->
  key_le k1 k1
  /\ (key_le k1 k2 -> key_le k2 k1 -> k1 = k2)
  /\ (key_le k1 k2 -> key_le k2 k3 -> key_le k1 k3)
  /\ (key_le k1 k2 \/ key_le k2 k1).
Proof.
  intros H1 H2 H3.
  rewrite (key_le_cmp k1 k1 expect_int), (key_le_cmp k1 k2 expect_int),
    (key_le_cmp k2 k1 expect_int), (key_le_cmp k2 k3 expect_int),
    (key_le_cmp k1 k3 expect_int) by assumption.
  rewrite key_cmp_refl, (key_cmp_antisym k1 k2).
  repeat split.
  - discriminate.
  - destruct (key_cmp k1 k2) eqn:Hc; cbn; try congruence.
    intros _ _. eapply key_cmp_eq; eassumption.
  - destruct (key_cmp k1 k2) eqn:H12; try congruence;
      destruct (key_cmp k2 k3) eqn:H23; try congruence; intros _ _.
    + rewrite (key_cmp_eq k1 k2 expect_int H1 H2 H12), H23. discriminate.
    + rewrite (key_cmp_eq k1 k2 expect_int H1 H2 H12), H23. discriminate.
    + rewrite <- (key_cmp_eq k2 k3 expect_int H2 H3 H23), H12. discriminate.
    + rewrite (key_cmp_lt_trans k1 k2 k3 expect_int) by assumption.
      discriminate.
  - destruct (key_cmp k1 k2); cbn; [left | left | right]; discriminate.
Qed.

(** *** The sort *)

Lemma keyed_shape (d : decorated) : keyed d -> key_shape false (fst d) = true.
Proof. intros H. apply (alphanum_key_shape (snd d) (fst d) H). Qed.

Lemma decorated_le_trans (x y z : decorated) :
  keyed x -> keyed y -> keyed z ->
  decorated_le x y -> decorated_le y z -> decorated_le x z.
Proof.
  intros Hx Hy Hz.
  apply (key_le_total_order false (fst x) (fst y) (fst z));
    apply keyed_shape; assumption.
Qed.

Lemma Forall_decorated_le_trans (x y : decorated) (l : list decorated) :
  keyed x -> keyed y -> Forall keyed l ->
  decorated_le x y -> Forall (decorated_le y) l -> Forall (decorated_le x) l.
Proof.
  intros Hx Hy Hl Hxy Hall.
  induction l as [| z l IH]; constructor;
    inversion Hl; inversion Hall; subst.
  - eapply (decorated_le_trans x y z); assumption.
  - apply IH; assumption.
Qed.

(** Inserting an item that stood in front: the result is a permutation
    and stays sorted. *)
Lemma insert_sorted_spec (x : decorated) (l : list decorated) :
  keyed x -> Forall keyed l ->
  exists r : list decorated,
    insert_sorted x l = Return r
    /\ Permutation (x :: l) r
    /\ (StronglySorted decorated_le l -> StronglySorted decorated_le r).
Proof.
  intros Hx. induction l as [| y l IH]; intros Hl.
  - exists [x]. repeat split; [reflexivity |].
    intros _. repeat constructor.
  - inversion Hl as [| ? ? Hy Hl']; subst.
    pose proof (keyed_shape x Hx) as Sx.
    pose proof (keyed_shape y Hy) as Sy.
    destruct (IH Hl') as (r & Hr & Hperm & Hsorted).
    assert (Hstay : key_cmp (fst y) (fst x) <> Lt ->
                    StronglySorted decorated_le (y :: l) ->
                    StronglySorted decorated_le (x :: y :: l)).
    { intros Hc Hs.
      assert (Hxy : decorated_le x y).
      { unfold decorated_le, key_le.
        rewrite (key_ltb_cmp _ _ false Sy Sx).
        destruct (key_cmp (fst y) (fst x)); congruence. }
      constructor; [exact Hs |]. constructor; [exact Hxy |].
      apply StronglySorted_inv in Hs as [_ Hall].
      apply (Forall_decorated_le_trans x y l); assumption. }
    cbn [insert_sorted]. rewrite (key_ltb_cmp (fst y) (fst x) false Sy Sx).
    cbn [obind]. destruct (key_cmp (fst y) (fst x)) eqn:Hc.
    + exists (x :: y :: l). repeat split; [reflexivity |].
      apply Hstay. discriminate.
    + rewrite Hr. cbn [obind]. exists (y :: r). repeat split.
      * rewrite perm_swap. constructor. exact Hperm.
      * intros Hs. apply StronglySorted_inv in Hs as [Hs Hall].
        constructor; [apply Hsorted, Hs |].
        apply (Permutation_Forall Hperm). constructor; [| exact Hall].
        unfold decorated_le, key_le.
        rewrite (key_ltb_cmp _ _ false Sx Sy), (key_cmp_antisym (fst y)), Hc.
        reflexivity.
    + exists (x :: y :: l). repeat split; [reflexivity |].
      apply Hstay. discriminate.
Qed.

Lemma sort_decorated_spec (l : list decorated) :
  Forall keyed l ->
  exists r : list decorated,
    sort_decorated l = Return r
    /\ Permutation l r
    /\ StronglySorted decorated_le r.
Proof.
  induction l as [| x l IH]; intros Hl.
  - exists []. repeat split; constructor.
  - inversion Hl as [| ? ? Hx Hl']; subst.
    destruct (IH Hl') as (r' & Hr' & Hperm' & Hs').
    assert (Hk : Forall keyed r') by apply (Permutation_Forall Hperm' Hl').
    destruct (insert_sorted_spec x r' Hx Hk) as (r & Hr & Hperm & Hs).
    exists r. cbn [sort_decorated]. rewrite Hr'. cbn [obind].
    repeat split; [exact Hr | | apply Hs, Hs'].
    rewrite <- Hperm. constructor. exact Hperm'.
Qed.

(** Decorating computes every key; it fails only with [ValueError]. *)
Lemma omap_decorate_spec (items : list string) :
  (exists ds : list decorated,
      omap decorate items = Return ds
      /\ map snd ds = items /\ Forall keyed ds)
  \/ (omap decorate items = Raise ValueError
      /\ exists item, In item items /\ alphanum_key item = Raise ValueError).
Proof.
  induction items as [| item items IH].
  - left. exists []. repeat split. constructor.
  - cbn [omap].
    change (decorate item)
      with (obind (alphanum_key item) (fun k => Return (k, item))).
    destruct (alphanum_key item) as [k | e] eqn:Hk; cbn [obind].
    + destruct IH as [(ds & -> & Hm & Hf) | (-> & item' & Hin & He)].
      * left. exists ((k, item) :: ds). cbn. rewrite Hm.
        repeat split. constructor; [exact Hk | exact Hf].
      * right. split; [reflexivity |]. exists item'. split; [right |]; auto.
    + pose proof (alphanum_key_raises_only_ValueError item e Hk). subst e.
      right. split; [reflexivity |]. exists item. split; [left |]; auto.
Qed.

(** On the strings of this file (code points below 256) the sort never
    raises [TypeError]: it returns, or a key was not defined and it
    raises [ValueError]. *)
Lemma natural_sort_never_type_error (items : list string) :
  (exists sorted, naturalSortItems items = Return sorted)
  \/ naturalSortItems items = Raise ValueError.
Proof.
  unfold naturalSortItems.
  destruct (omap_decorate_spec items) as [(ds & -> & _ & Hf) | (-> & _)].
  - left. cbn [obind].
    destruct (sort_decorated_spec ds Hf) as (r & -> & _). cbn. eauto.
  - right. reflexivity.
Qed.

(** When every key is defined, the sort returns the items in an order
    that is a permutation of the input and in which every item's key is
    below or equal to the keys of all items after it. *)
Lemma natural_sort_sorted (items : list string) :
  Forall (fun item => exists k, alphanum_key item = Return k) items ->
  exists ds : list decorated,
    naturalSortItems items = Return (map snd ds)
    /\ Permutation items (map snd ds)
    /\ Forall keyed ds
    /\ StronglySorted decorated_le ds.
Proof.
  intros Hdef. unfold naturalSortItems.
  destruct (omap_decorate_spec items)
    as [(ds & Hds & Hm & Hf) | (_ & item & Hin & He)].
  - destruct (sort_decorated_spec ds Hf) as (r & Hr & Hperm & Hs).
    exists r. rewrite Hds. cbn [obind]. rewrite Hr. cbn [obind].
    repeat split; [| apply (Permutation_Forall Hperm Hf) | exact Hs].
    rewrite <- Hm. apply Permutation_map, Hperm.
  - apply Forall_forall with (x := item) in Hdef.
    + destruct Hdef as [k Hk]. congruence.
    + apply list_elem_of_In, Hin.
Qed.

Lemma natural_sort_sorted_witness :
  Forall (fun item => exists k, alphanum_key item = Return k)
    ["f2"; "f10"; "f1"]
  /\ exists ds : list decorated,
      naturalSortItems ["f2"; "f10"; "f1"] = Return (map snd ds)
      /\ StronglySorted decorated_le ds.
Proof.
  assert (H : Forall (fun item => exists k, alphanum_key item = Return k)
                ["f2"; "f10"; "f1"])
    by (repeat constructor; eexists; reflexivity).
  split; [exact H |].
  destruct (natural_sort_sorted ["f2"; "f10"; "f1"] H) as (ds & Hr & _ & _ & Hs).
  exists ds. split; assumption.
Defined.

(** C4, at [["f2"; "f10"; "f1"]] and at a list that holds the name
    [f1] followed by SUPERSCRIPT TWO: the first is sorted by the value
    of its digit runs; on the second the key function raises
    [ValueError] and no order is produced. *)
Theorem natural_sort_example_and_failure :
  naturalSortItems ["f2"; "f10"; "f1"] = Return ["f1"; "f2"; "f10"]
  /\ naturalSortItems ["f2"; Samples.f1_squared; "f1"] = Raise ValueError.
Proof. split; reflexivity. Qed.

(** C10, at the name [f1] followed by SUPERSCRIPT TWO: the split ends
    with the text ["²"], [isdigit] accepts it, [int] does not, and so
    the key function and the sort raise [ValueError]. *)
Theorem alphanum_key_not_total :
  re_split Samples.f1_squared
  = ["f"; "1"; String Samples.superscript_two ""]
  /\ isdigit (String Samples.superscript_two "") = true
  /\ int_ (String Samples.superscript_two "") = Raise ValueError
  /\ alphanum_key Samples.f1_squared = Raise ValueError
  /\ naturalSortItems [Samples.f1_squared] = Raise ValueError.
Proof. repeat split. Qed.

End NaturalOrderingFacts.

(* ===================================================================== *)
(** ** Natural ordering: further properties *)
(* ===================================================================== *)

Module NaturalOrderingExtras.

Import NaturalOrdering NaturalOrderingFacts.
Local Open Scope list_scope.

(** *** The split, exactly *)

Lemma append_nil_r (a : string) : (a ++ "")%string = a.
Proof. induction a as [| x a IH]; cbn; [| rewrite IH]; reflexivity. Qed.

Lemma scan_text (p : string) :
  forall acc rest : string,
    is_text_run p = true ->
    scan false acc (p ++ rest)%string = scan false (acc ++ p)%string rest.
Proof.
  unfold is_text_run.
  induction p as [| c p IH]; intros acc rest Hp; cbn in *.
  - rewrite append_nil_r. reflexivity.
  - apply andb_true_iff in Hp as [Hc Hp]. apply negb_true_iff in Hc.
    rewrite Hc. cbn [Bool.eqb]. rewrite (IH _ _ Hp), append_assoc.
    reflexivity.
Qed.

Lemma scan_digits (d : string) :
  forall acc rest : string,
    all_chars is_ascii_digit d = true ->
    scan true acc (d ++ rest)%string = scan true (acc ++ d)%string rest.
Proof.
  induction d as [| c d IH]; intros acc rest Hd; cbn in *.
  - rewrite append_nil_r. reflexivity.
  - apply andb_true_iff in Hd as [Hc Hd].
    rewrite Hc. cbn [Bool.eqb]. rewrite (IH _ _ Hd), append_assoc.
    reflexivity.
Qed.

Lemma split_shape_parity (l : list string) :
  forall in_digits : bool,
    split_shape in_digits l = true ->
    Nat.even (length l) = in_digits.
Proof.
  induction l as [| s l IH]; intros b H.
  - cbn in *. congruence.
  - cbn [split_shape] in H. apply andb_true_iff in H as [_ H].
    apply IH in H. cbn [length]. rewrite Nat.even_succ, <- Nat.negb_even, H.
    apply negb_involutive.
Qed.

Lemma snoc_not_empty (acc : string) (c : ascii) :
  String.eqb (acc ++ String c "")%string "" = false.
Proof. destruct acc; reflexivity. Qed.

(** The scanner returns whole runs: no text between two matches is
    empty. *)
Lemma scan_run_pieces (s : string) :
  forall (in_digits first : bool) (acc : string),
    (if in_digits then is_digit_run acc
     else is_text_run acc && (first || negb (String.eqb acc ""))) = true ->
    run_pieces in_digits first (scan in_digits acc s) = true.
Proof.
  induction s as [| c s IH]; intros b first acc Hacc.
  - destruct b; cbn.
    + rewrite Hacc. reflexivity.
    + apply andb_true_iff in Hacc as [-> _]. reflexivity.
  - cbn [scan]. destruct (is_ascii_digit c) eqn:Hc, b; cbn [Bool.eqb negb].
    + apply IH. apply digit_run_snoc; assumption.
    + apply andb_true_iff in Hacc as [Ht Hf].
      pose proof (IH true false (String c "")) as IHd.
      pose proof (scan_not_nil s true (String c "")) as Hnn.
      destruct (scan true (String c "") s) as [| d r] eqn:Hs; [congruence |].
      cbn [run_pieces]. rewrite Ht, Hf. cbn [andb].
      apply IHd. cbn. rewrite Hc. reflexivity.
    + cbn [run_pieces]. rewrite Hacc. cbn [andb].
      apply IH. cbn. rewrite Hc. reflexivity.
    + apply andb_true_iff in Hacc as [Ht _].
      apply IH. rewrite (text_run_snoc acc c Ht Hc), snoc_not_empty.
      rewrite orb_true_r. reflexivity.
Qed.

Lemma concat_cons (s : string) (l : list string) :
  l <> [] -> String.concat "" (s :: l) = (s ++ String.concat "" l)%string.
Proof. destruct l; [congruence | reflexivity]. Qed.

(** Pieces that are whole runs are found again by the scanner in what
    they spell. *)
Lemma run_pieces_scan (l : list string) :
  (forall (first : bool) (acc : string),
      run_pieces false first l = true ->
      scan false acc (String.concat "" l) = (acc ++ hd "" l)%string :: tl l)
  /\ (forall (first : bool) (acc : string),
         run_pieces true first l = true ->
         scan true acc (String.concat "" l) = (acc ++ hd "" l)%string :: tl l).
Proof.
  induction l as [| s l [IHt IHd]]; [split; discriminate |].
  split; intros first acc H; cbn [run_pieces] in H; cbn [hd tl].
  - apply andb_true_iff in H as [Ht H].
    destruct l as [| d l'].
    + cbn [String.concat]. rewrite <- (append_nil_r s) at 1.
      rewrite (scan_text s acc "" Ht). reflexivity.
    + apply andb_true_iff in H as [_ Hd].
      rewrite concat_cons by discriminate.
      rewrite (scan_text s acc _ Ht).
      specialize (IHd false "" Hd). cbn [hd tl String.append] in IHd.
      cbn [run_pieces] in Hd. apply andb_true_iff in Hd as [Hdr _].
      destruct (String.concat "" (d :: l')) as [| c R] eqn:Hcat.
      { exfalso. destruct d as [| c d]; [discriminate Hdr |].
        destruct l'; discriminate Hcat. }
      assert (Hc : is_ascii_digit c = true).
      { destruct d as [| c' d]; [discriminate Hdr |].
        assert (c = c') as -> by (destruct l'; cbn in Hcat; congruence).
        cbn in Hdr. apply andb_true_iff in Hdr as [Hdr _]. exact Hdr. }
      cbn [scan] in IHd |- *. rewrite Hc in IHd |- *.
      cbn [Bool.eqb negb String.append] in IHd |- *.
      rewrite IHd. reflexivity.
  - apply andb_true_iff in H as [Hdr Ht].
    assert (Hall : all_chars is_ascii_digit s = true).
    { destruct s; [discriminate Hdr | exact Hdr]. }
    destruct l as [| t l']; [discriminate Ht |].
    rewrite concat_cons by discriminate.
    rewrite (scan_digits s acc _ Hall).
    specialize (IHt false "" Ht). cbn [hd tl String.append] in IHt.
    cbn [run_pieces] in Ht. apply andb_true_iff in Ht as [Htr Hrest].
    destruct (String.concat "" (t :: l')) as [| c R] eqn:Hcat.
    + cbn [scan].
      destruct t as [| x t].
      * destruct l' as [| d l'']; [reflexivity |].
        cbn in Hrest. discriminate Hrest.
      * destruct l'; discriminate Hcat.
    + assert (Hc : is_ascii_digit c = false).
      { destruct t as [| x t].
        - destruct l' as [| d l'']; [discriminate Hcat |].
          cbn in Hrest. discriminate Hrest.
        - assert (c = x) as -> by (destruct l'; cbn in Hcat; congruence).
          unfold is_text_run in Htr. cbn in Htr.
          apply andb_true_iff in Htr as [Hx _].
          apply negb_true_iff, Hx. }
      cbn [scan] in IHt |- *. rewrite Hc in IHt |- *.
      cbn [Bool.eqb negb String.append] in IHt |- *.
      rewrite IHt. reflexivity.
Qed.

(** X1. [re.split('([0-9]+)', key)] is the one way to cut the key into
    text, digit run, text, ..., text with whole digit runs: its pieces,
    joined, give the key back; the pieces at even positions hold no
    character of [[0-9]], those at odd positions are non-empty digit
    runs, and only the first and the last piece may be empty; their
    number is odd; and every list of pieces with these properties that
    spells the key is the split. *)
Theorem re_split_partition (key : string) :
  String.concat "" (re_split key) = key
  /\ run_pieces false true (re_split key) = true
  /\ Nat.odd (length (re_split key)) = true
  /\ forall l : list string,
       run_pieces false true l = true ->
       String.concat "" l = key ->
       l = re_split key.
Proof.
  split; [apply re_split_join |].
  split; [apply scan_run_pieces; reflexivity |].
  split.
  { rewrite <- Nat.negb_even.
    rewrite (split_shape_parity _ false (re_split_shape key)). reflexivity. }
  intros l Hl Hcat. unfold re_split. rewrite <- Hcat.
  rewrite (proj1 (run_pieces_scan l) true "" Hl).
  destruct l; [discriminate Hl | reflexivity].
Qed.

(** *** The order *)

(** X2. On the keys of names whose keys are defined and alternate texts
    and integers, starting with a text, [<] never raises and the order
    the sort uses is reflexive, antisymmetric, transitive and total. *)
Theorem natural_order_is_total (a b c : string) (ka kb kc : list token) :
  alphanum_key a = Return ka -> key_shape false ka = true ->
  alphanum_key b = Return kb -> key_shape false kb = true ->
  alphanum_key c = Return kc -> key_shape false kc = true ->
  (exists r : bool, key_ltb ka kb = Return r)
  /\ key_le ka ka
  /\ (key_le ka kb -> key_le kb ka -> ka = kb)
  /\ (key_le ka kb -> key_le kb kc -> key_le ka kc)
  /\ (key_le ka kb \/ key_le kb ka).
Proof.
  intros _ Sa _ Sb _ Sc.
  split.
  - rewrite (key_ltb_cmp ka kb false Sa Sb). eauto.
  - apply (key_le_total_order false ka kb kc Sa Sb Sc).
Qed.

Lemma natural_order_is_total_witness :
  alphanum_key "f2" = Return [TStr "f"; TInt 2; TStr ""]
  /\ alphanum_key "f10" = Return [TStr "f"; TInt 10; TStr ""]
  /\ key_shape false [TStr "f"; TInt 2; TStr ""] = true
  /\ key_shape false [TStr "f"; TInt 10; TStr ""] = true
  /\ (key_le [TStr "f"; TInt 2; TStr ""] [TStr "f"; TInt 10; TStr ""]
      \/ key_le [TStr "f"; TInt 10; TStr ""] [TStr "f"; TInt 2; TStr ""]).
Proof.
  do 4 (split; [reflexivity |]).
  apply (natural_order_is_total "f2" "f10" "f2" _ _ _
           eq_refl eq_refl eq_refl eq_refl eq_refl eq_refl).
Defined.

Lemma keyed_in_map_snd (ds : list decorated) (item : string) :
  Forall keyed ds -> In item (map snd ds) ->
  exists k, alphanum_key item = Return k.
Proof.
  intros Hf Hin. apply in_map_iff in Hin as (d & <- & Hd).
  exists (fst d).
  apply Forall_forall with (x := d) in Hf; [exact Hf |].
  apply list_elem_of_In, Hd.
Qed.

(** X4. On a list in which every key that is defined alternates texts
    and integers, starting with a text, the sort raises exactly when
    the key of one of the items raises, and the exception is then
    [ValueError]. *)
Theorem natural_sort_raises_iff (items : list string) :
  (forall item k,
      In item items -> alphanum_key item = Return k ->
      key_shape false k = true) ->
  (naturalSortItems items = Raise ValueError
   <-> exists item, In item items /\ alphanum_key item = Raise ValueError)
  /\ (forall e, naturalSortItems items = Raise e -> e = ValueError).
Proof.
  intros _. unfold naturalSortItems.
  destruct (omap_decorate_spec items)
    as [(ds & Hds & Hm & Hf) | (Hr & item & Hin & He)].
  - rewrite Hds. cbn [obind].
    destruct (sort_decorated_spec ds Hf) as (r & -> & _). cbn [obind].
    split; [| discriminate]. split; [discriminate |].
    intros (item & Hin & He). rewrite <- Hm in Hin.
    destruct (keyed_in_map_snd ds item Hf Hin) as [k Hk]. congruence.
  - rewrite Hr. cbn [obind]. split; [| congruence].
    split; [eauto | reflexivity].
Qed.

Lemma natural_sort_raises_iff_witness :
  (forall item k,
      In item ["f2"; Samples.f1_squared; "f1"] ->
      alphanum_key item = Return k -> key_shape false k = true)
  /\ naturalSortItems ["f2"; Samples.f1_squared; "f1"] = Raise ValueError.
Proof.
  assert (H : forall item k,
             In item ["f2"; Samples.f1_squared; "f1"] ->
             alphanum_key item = Return k -> key_shape false k = true).
  { intros item k [<- | [<- | [<- | []]]] Hk;
      try discriminate Hk; injection Hk as <-; reflexivity. }
  split; [exact H |].
  apply (proj1 (natural_sort_raises_iff _ H)).
  exists Samples.f1_squared. split; [right; left |]; reflexivity.
Defined.

(** *** Names made of a text, a number and a text *)

(** The split of text, digit run, text. *)
Lemma re_split_text_digits_text (p d s : string) :
  is_text_run p = true -> is_digit_run d = true -> is_text_run s = true ->
  re_split (p ++ d ++ s)%string = [p; d; s].
Proof.
  intros Hp Hd Hs. unfold re_split.
  rewrite (scan_text p "" _ Hp). cbn [String.append].
  destruct d as [| c d]; [discriminate Hd |].
  unfold is_digit_run in Hd. cbn in Hd.
  apply andb_true_iff in Hd as [Hc Hd].
  cbn [String.append scan]. rewrite Hc. cbn [Bool.eqb negb]. f_equal.
  rewrite (scan_digits d _ s Hd). cbn [String.append].
  destruct s as [| x s]; [reflexivity |].
  pose proof Hs as Hs'. unfold is_text_run in Hs. cbn in Hs.
  apply andb_true_iff in Hs as [Hx Hs]. apply negb_true_iff in Hx.
  cbn [scan]. rewrite Hx. cbn [Bool.eqb negb]. f_equal.
  rewrite <- (append_nil_r s) at 1.
  rewrite (scan_text s (String x "") "" Hs). reflexivity.
Qed.

Lemma convert_digit_run_value (d : string) :
  is_digit_run d = true -> short d = true ->
  exists n : Z, decimal_value 0 d = Some n /\ convert d = Return (TInt n).
Proof.
  intros Hd Hs. destruct (convert_digit_run d Hd Hs) as [n Hn].
  exists n. split; [| exact Hn].
  unfold convert, int_ in Hn.
  destruct (isdigit d); [| discriminate Hn].
  destruct (_ <? _)%nat; [discriminate Hn |].
  destruct (decimal_value 0 d); cbn in Hn; congruence.
Qed.

Lemma convert_not_isdigit (t : string) :
  isdigit t = false -> convert t = Return (TStr t).
Proof. intros H. unfold convert. rewrite H. reflexivity. Qed.

(** X5. Names that differ only in one number are ordered by the value
    of the number. For a text [p] before and a text [s] after a digit
    run, both without a character of [[0-9]] and neither accepted by
    [isdigit], and for digit runs [d1], [d2] that [int] accepts for
    their length, the key of [p d s] is [[p, int(d), s]] and
    [p d1 s < p d2 s] holds exactly when [int(d1) < int(d2)]. *)
Theorem natural_order_by_number (p d1 d2 s : string) :
  is_text_run p = true -> isdigit p = false ->
  is_text_run s = true -> isdigit s = false ->
  is_digit_run d1 = true -> short d1 = true ->
  is_digit_run d2 = true -> short d2 = true ->
  exists n1 n2 : Z,
    decimal_value 0 d1 = Some n1 /\ decimal_value 0 d2 = Some n2
    /\ alphanum_key (p ++ d1 ++ s)%string = Return [TStr p; TInt n1; TStr s]
    /\ alphanum_key (p ++ d2 ++ s)%string = Return [TStr p; TInt n2; TStr s]
    /\ key_ltb [TStr p; TInt n1; TStr s] [TStr p; TInt n2; TStr s]
       = Return (n1 <? n2).
Proof.
  intros Hp Pp Hs Ps H1 S1 H2 S2.
  destruct (convert_digit_run_value d1 H1 S1) as (n1 & V1 & C1).
  destruct (convert_digit_run_value d2 H2 S2) as (n2 & V2 & C2).
  exists n1, n2. split; [exact V1 |]. split; [exact V2 |].
  unfold alphanum_key.
  rewrite !re_split_text_digits_text by assumption.
  cbn [omap].
  rewrite (convert_not_isdigit p Pp), (convert_not_isdigit s Ps), C1, C2.
  cbn [obind]. split; [reflexivity |]. split; [reflexivity |].
  cbn [key_ltb token_eqb token_ltb]. rewrite !String.eqb_refl.
  destruct (Z.eqb_spec n1 n2) as [-> | Hne]; [| reflexivity].
  rewrite Z.ltb_irrefl. reflexivity.
Qed.

Lemma natural_order_by_number_witness :
  is_text_run "frame" = true /\ isdigit "frame" = false
  /\ is_text_run ".png" = true /\ isdigit ".png" = false
  /\ is_digit_run "9" = true /\ short "9" = true
  /\ is_digit_run "010" = true /\ short "010" = true
  /\ exists n1 n2 : Z,
      alphanum_key "frame9.png" = Return [TStr "frame"; TInt n1; TStr ".png"]
      /\ alphanum_key "frame010.png"
         = Return [TStr "frame"; TInt n2; TStr ".png"]
      /\ key_ltb [TStr "frame"; TInt n1; TStr ".png"]
           [TStr "frame"; TInt n2; TStr ".png"] = Return (n1 <? n2).
Proof.
  do 8 (split; [reflexivity |]).
  destruct (natural_order_by_number "frame" "9" "010" ".png"
              eq_refl eq_refl eq_refl eq_refl eq_refl eq_refl eq_refl eq_refl)
    as (n1 & n2 & _ & _ & K1 & K2 & L).
  exists n1, n2. split; [exact K1 |]. split; [exact K2 | exact L].
Defined.

(** X6. Names without a character of [[0-9]] that [isdigit] does not
    accept are ordered as plain strings: the key of such a name is the
    name alone and [<] on two such keys is [<] on the names. *)
Theorem natural_order_without_digits (a b : string) :
  is_text_run a = true -> isdigit a = false ->
  is_text_run b = true -> isdigit b = false ->
  alphanum_key a = Return [TStr a]
  /\ alphanum_key b = Return [TStr b]
  /\ key_ltb [TStr a] [TStr b] = Return (String.ltb a b).
Proof.
  intros Ha Pa Hb Pb.
  assert (Hk : forall t, is_text_run t = true -> isdigit t = false ->
                         alphanum_key t = Return [TStr t]).
  { intros t Ht Pt. unfold alphanum_key, re_split.
    rewrite <- (append_nil_r t) at 1.
    rewrite (scan_text t "" "" Ht). cbn [String.append scan omap].
    rewrite (convert_not_isdigit t Pt). reflexivity. }
  split; [apply Hk; assumption |]. split; [apply Hk; assumption |].
  cbn [key_ltb token_eqb token_ltb].
  destruct (String.eqb_spec a b) as [-> | Hne]; [| reflexivity].
  unfold String.ltb. rewrite string_compare_refl. reflexivity.
Qed.

Lemma natural_order_without_digits_witness :
  is_text_run "alpha" = true /\ isdigit "alpha" = false
  /\ is_text_run "beta" = true /\ isdigit "beta" = false
  /\ key_ltb [TStr "alpha"] [TStr "beta"] = Return true.
Proof.
  do 4 (split; [reflexivity |]).
  apply (natural_order_without_digits "alpha" "beta"); reflexivity.
Defined.

(** *** Sorting what is sorted *)

Lemma omap_decorate_keyed (ds : list decorated) :
  Forall keyed ds -> omap decorate (map snd ds) = Return ds.
Proof.
  induction ds as [| [k item] ds IH]; intros Hf; [reflexivity |].
  inversion Hf as [| ? ? Hd Hf']; subst. cbn [map omap snd].
  change (decorate item)
    with (obind (alphanum_key item) (fun k => Return (k, item))).
  unfold keyed in Hd. cbn [fst snd] in Hd. rewrite Hd.
  cbn [obind]. rewrite (IH Hf'). reflexivity.
Qed.

Lemma insert_sorted_least (x : decorated) (l : list decorated) :
  Forall (decorated_le x) l -> insert_sorted x l = Return (x :: l).
Proof.
  destruct l as [| y l]; [reflexivity |].
  intros Hf. inversion Hf as [| ? ? Hxy _]; subst.
  cbn [insert_sorted]. unfold decorated_le, key_le in Hxy.
  rewrite Hxy. reflexivity.
Qed.

Lemma sort_decorated_sorted (l : list decorated) :
  StronglySorted decorated_le l -> sort_decorated l = Return l.
Proof.
  induction l as [| x l IH]; intros Hs; [reflexivity |].
  apply StronglySorted_inv in Hs as [Hs Hall].
  cbn [sort_decorated]. rewrite (IH Hs). cbn [obind].
  apply insert_sorted_least, Hall.
Qed.

(** X7. Sorting is idempotent: the list a sort returned is returned
    unchanged by a second sort. *)
Theorem natural_sort_idempotent (items sorted : list string) :
  naturalSortItems items = Return sorted ->
  naturalSortItems sorted = Return sorted.
Proof.
  unfold naturalSortItems. intros H.
  destruct (omap_decorate_spec items)
    as [(ds & Hds & _ & Hf) | (Hr & _)];
    [| rewrite Hr in H; discriminate H].
  rewrite Hds in H. cbn [obind] in H.
  destruct (sort_decorated_spec ds Hf) as (r & Hr & Hperm & Hs).
  rewrite Hr in H. cbn [obind] in H. injection H as <-.
  assert (Hk : Forall keyed r) by apply (Permutation_Forall Hperm Hf).
  rewrite (omap_decorate_keyed r Hk). cbn [obind].
  rewrite (sort_decorated_sorted r Hs). reflexivity.
Qed.

Lemma natural_sort_idempotent_witness :
  naturalSortItems ["f2"; "f10"; "f1"] = Return ["f1"; "f2"; "f10"]
  /\ naturalSortItems ["f1"; "f2"; "f10"] = Return ["f1"; "f2"; "f10"].
Proof.
  split; [reflexivity |].
  apply (natural_sort_idempotent ["f2"; "f10"; "f1"]). reflexivity.
Defined.

Lemma omap_alphanum_key_keyed (ds : list decorated) :
  Forall keyed ds -> omap alphanum_key (map snd ds) = Return (map fst ds).
Proof.
  induction ds as [| d ds IH]; intros Hf; [reflexivity |].
  inversion Hf as [| ? ? Hd Hf']; subst. cbn [map omap].
  unfold keyed in Hd. rewrite Hd. cbn [obind]. rewrite (IH Hf').
  reflexivity.
Qed.

Lemma StronglySorted_map_fst (ds : list decorated) :
  StronglySorted decorated_le ds -> StronglySorted key_le (map fst ds).
Proof.
  induction 1 as [| d ds Hs IH Hall]; cbn; constructor; [exact IH |].
  apply Forall_map. exact Hall.
Qed.

Lemma defined_of_alternating (items : list string) :
  Forall (fun item =>
            exists k, alphanum_key item = Return k /\ key_shape false k = true)
    items ->
  Forall (fun item => exists k, alphanum_key item = Return k) items.
Proof.
  intros H. eapply Forall_impl; [exact H |].
  intros item (k & Hk & _). eauto.
Qed.

(** X3. When the key of every item is defined and alternates texts and
    integers, starting with a text, the sort returns a permutation of
    the items whose keys are in order: each key is below or equal to
    every key after it. *)
Theorem natural_sort_orders_items (items : list string) :
  Forall (fun item =>
            exists k, alphanum_key item = Return k /\ key_shape false k = true)
    items ->
  exists (sorted : list string) (keys : list (list token)),
    naturalSortItems items = Return sorted
    /\ Permutation items sorted
    /\ omap alphanum_key sorted = Return keys
    /\ StronglySorted key_le keys.
Proof.
  intros Hdef. apply defined_of_alternating in Hdef.
  destruct (natural_sort_sorted items Hdef) as (ds & Hr & Hperm & Hk & Hs).
  exists (map snd ds), (map fst ds).
  split; [exact Hr |]. split; [exact Hperm |].
  split; [apply omap_alphanum_key_keyed, Hk |].
  apply StronglySorted_map_fst, Hs.
Qed.

Lemma natural_sort_orders_items_witness :
  Forall (fun item =>
            exists k, alphanum_key item = Return k /\ key_shape false k = true)
    ["f2"; "f10"; "f1"]
  /\ exists (sorted : list string) (keys : list (list token)),
      naturalSortItems ["f2"; "f10"; "f1"] = Return sorted
      /\ omap alphanum_key sorted = Return keys
      /\ StronglySorted key_le keys.
Proof.
  assert (H : Forall (fun item =>
                        exists k, alphanum_key item = Return k
                                  /\ key_shape false k = true)
                ["f2"; "f10"; "f1"])
    by (repeat constructor; eexists; split; reflexivity).
  split; [exact H |].
  destruct (natural_sort_orders_items ["f2"; "f10"; "f1"] H)
    as (sorted & keys & Hr & _ & Hk & Hs).
  exists sorted, keys. split; [exact Hr |]. split; [exact Hk | exact Hs].
Defined.

End NaturalOrderingExtras.

(* ===================================================================== *)
(** ** Playback: further properties *)
(* ===================================================================== *)

Module PlaybackExtras.

Import ImageSequence.
Local Open Scope py_scope.
Local Open Scope list_scope.

Lemma frameChanged_eq (w : World) :
  _frameChanged w =
    match _frames w with
    | [] => (Return tt, w)
    | _ :: _ => jumpToFrame (_frame w + 1) w
    end.
Proof. unfold _frameChanged, bind, get. destruct (_frames w); reflexivity. Qed.

(** One tick on a sequence with frames and the index in range. *)
Lemma tick_step (w : World) :
  _frames w <> [] -> index_in_range w ->
  let L := Z.of_nat (length (_frames w)) in
  let f := (_frame w + 1) mod L in
  _frameChanged w =
    (Return tt, with_frameChanged (frameChanged w ++ [f]) (with_frame f w)).
Proof.
  intros Hne Hin L f. specialize (Hin Hne). fold L in Hin.
  rewrite frameChanged_eq.
  destruct (_frames w) as [| x fs] eqn:He; [congruence |].
  rewrite PlaybackFacts.jumpToFrame_eq, He. fold L. cbv zeta.
  assert (Hf : (if _frame w + 1 >=? L then 0 else _frame w + 1) = f).
  { subst f. destruct (Z.geb_spec (_frame w + 1) L).
    - assert (_frame w + 1 = L) as -> by lia.
      rewrite Z_mod_same_full. reflexivity.
    - rewrite Z.mod_small by lia. reflexivity. }
  rewrite Hf. reflexivity.
Qed.

(** X8. Ticks cycle through the frames: after [n] ticks on a sequence
    with frames and the index in range, the index is [(index + n) mod
    frameCount()], the frame list is as before and exactly [n]
    notifications were emitted, the [k]-th carrying the index after the
    [k]-th tick; [frameCount()] ticks lead back to the same frame. *)
Theorem ticks_cycle (w : World) (n : nat) :
  _frames w <> [] -> index_in_range w ->
  let L := Z.of_nat (length (_frames w)) in
  _frame (Samples.ticks n w) = (_frame w + Z.of_nat n) mod L
  /\ _frames (Samples.ticks n w) = _frames w
  /\ frameChanged (Samples.ticks n w) =
       frameChanged w
       ++ map (fun k => (_frame w + Z.of_nat k) mod L) (seq 1 n)
  /\ _frame (Samples.ticks (length (_frames w)) w) = _frame w.
Proof.
  intros Hne Hin L.
  assert (HL : 0 < L).
  { subst L. destruct (_frames w); [congruence | cbn; lia]. }
  assert (Hrange : 0 <= _frame w < L) by (apply Hin, Hne).
  assert (Hall : forall m : nat,
             _frame (Samples.ticks m w) = (_frame w + Z.of_nat m) mod L
             /\ _frames (Samples.ticks m w) = _frames w
             /\ frameChanged (Samples.ticks m w) =
                  frameChanged w
                  ++ map (fun k => (_frame w + Z.of_nat k) mod L) (seq 1 m)).
  { induction m as [| m (IHf & IHfs & IHlog)].
    - cbn. rewrite Z.add_0_r, Z.mod_small by lia.
      rewrite app_nil_r. auto.
    - cbn [Samples.ticks]. unfold after.
      rewrite tick_step; rewrite ?IHfs; fold L.
      + cbn [snd _frame _frames frameChanged with_frameChanged with_frame].
        rewrite IHf, IHlog, IHfs.
        assert (Hs : ((_frame w + Z.of_nat m) mod L + 1) mod L
                     = (_frame w + Z.of_nat (S m)) mod L).
        { rewrite Zplus_mod_idemp_l. f_equal. lia. }
        rewrite Hs. repeat split.
        rewrite seq_S, map_app, app_assoc. reflexivity.
      + exact Hne.
      + intros _. rewrite IHfs, IHf. fold L. apply Z.mod_pos_bound, HL. }
  destruct (Hall n) as (Hf & Hfs & Hlog).
  repeat split; try assumption.
  rewrite (proj1 (Hall (length (_frames w)))). fold L.
  rewrite <- (Z.mul_1_l L) at 1. rewrite Z_mod_plus_full.
  apply Z.mod_small, Hrange.
Qed.

Lemma ticks_cycle_witness :
  let w := Samples.loaded "seq" in
  _frames w <> [] /\ index_in_range w
  /\ _frame (Samples.ticks 4 w) = 1
  /\ frameChanged (Samples.ticks 4 w) = [1; 2; 0; 1].
Proof.
  intros w.
  assert (Hne : _frames w <> []) by discriminate.
  assert (Hin : index_in_range w) by (intros _; change (0 <= 0 < 3); lia).
  destruct (ticks_cycle w 4 Hne Hin) as (Hf & _ & Hlog & _).
  split; [exact Hne |]. split; [exact Hin |].
  split; [rewrite Hf | rewrite Hlog]; reflexivity.
Defined.

(** X9. On an empty sequence no number of ticks changes anything: no
    index is stored and no notification is emitted. *)
Theorem ticks_on_empty_sequence (w : World) (n : nat) :
  _frames w = [] -> Samples.ticks n w = w.
Proof.
  intros He. induction n as [| n IH]; [reflexivity |].
  cbn [Samples.ticks]. rewrite IH.
  unfold after. rewrite frameChanged_eq, He. reflexivity.
Qed.

Lemma ticks_on_empty_sequence_witness :
  _frames new_world = [] /\ Samples.ticks 5 new_world = new_world.
Proof.
  split; [reflexivity |]. apply (ticks_on_empty_sequence new_world 5).
  reflexivity.
Defined.

(** X10. [percent()] grows strictly with the index: for two indices
    [i < j] in range of the same frame list, [percent()] at [i] is
    smaller than [percent()] at [j]. *)
Theorem percent_strictly_increasing (w : World) (i j : Z) :
  0 <= i -> i < j -> j < Z.of_nat (length (_frames w)) ->
  exists qi qj : Q,
    result percent (with_frame i w) = Return qi
    /\ result percent (with_frame j w) = Return qj
    /\ (qi < qj)%Q.
Proof.
  intros Hi Hij Hj. set (L := Z.of_nat (length (_frames w))) in *.
  unfold result, percent, bind, get, ret, raise. cbn. fold L.
  destruct (Z.eqb_spec L (i + 1)); [lia |].
  destruct (Z.eqb_spec L 0); [lia |].
  destruct (PlaybackFacts.ratio_of_index L i) as (Ei & _ & Hi1); [lia | lia |].
  destruct (Z.eqb_spec L (j + 1)).
  - do 2 eexists. repeat split. exact Hi1.
  - destruct (PlaybackFacts.ratio_of_index L j) as (Ej & _ & _);
      [lia | lia |].
    do 2 eexists. repeat split. rewrite Ei, Ej.
    destruct L as [| p | p]; try lia.
    unfold Qdiv, Qinv, Qmult, Qlt, inject_Z; cbn. nia.
Qed.

Lemma percent_strictly_increasing_witness :
  let w := Samples.loaded "seq" in
  0 <= 0 /\ 0 < 1 /\ 1 < Z.of_nat (length (_frames w))
  /\ exists qi qj : Q,
      result percent (with_frame 0 w) = Return qi
      /\ result percent (with_frame 1 w) = Return qj
      /\ (qi < qj)%Q.
Proof.
  intros w.
  assert (H0 : 0 <= 0) by lia. assert (H1 : 0 < 1) by lia.
  assert (H2 : 1 < Z.of_nat (length (_frames w))) by (change (1 < 3); lia).
  split; [exact H0 |]. split; [exact H1 |]. split; [exact H2 |].
  exact (percent_strictly_increasing w 0 1 H0 H1 H2).
Defined.

Lemma getitem_cases {A} (l : list A) (i : Z) :
  let L := Z.of_nat (length l) in
  getitem l i =
    if (0 <=? i) && (i <? L)
    then match l !! Z.to_nat i with
         | Some x => Return x
         | None => Raise IndexError
         end
    else if (- L <=? i) && (i <? 0)
         then match l !! Z.to_nat (i + L) with
              | Some x => Return x
              | None => Raise IndexError
              end
         else Raise IndexError.
Proof.
  intros L. unfold getitem. fold L.
  destruct (Z.ltb_spec i 0), (Z.leb_spec 0 i), (Z.ltb_spec i L),
    (Z.leb_spec (- L) i); try lia; cbn [andb orb];
    repeat match goal with
      | |- context [?a <? ?b] => destruct (Z.ltb_spec a b); try lia
      | |- context [?a <=? ?b] => destruct (Z.leb_spec a b); try lia
      end; cbn [andb orb]; reflexivity.
Qed.

(** X11. [currentFilename()] never raises and changes nothing. With
    [L] frames it returns the frame at the index when [0 <= index < L],
    the frame at [index + L] (counted from the end) when [-L <= index <
    0], and [None] otherwise. *)
Theorem currentFilename_indexing (w : World) :
  let L := Z.of_nat (length (_frames w)) in
  let i := _frame w in
  currentFilename w =
    (Return (if (0 <=? i) && (i <? L) then _frames w !! Z.to_nat i
             else if (- L <=? i) && (i <? 0)
                  then _frames w !! Z.to_nat (i + L)
                  else None), w)
  /\ ((- L <=? i) && (i <? L) =
      bool_decide (is_Some (match result currentFilename w with
                            | Return o => o
                            | Raise _ => None
                            end))).
Proof.
  intros L i.
  assert (Heq : currentFilename w =
    (Return (if (0 <=? i) && (i <? L) then _frames w !! Z.to_nat i
             else if (- L <=? i) && (i <? 0)
                  then _frames w !! Z.to_nat (i + L)
                  else None), w)).
  { rewrite LifecycleFacts.currentFilename_eq, getitem_cases. fold L i.
    destruct ((0 <=? i) && (i <? L)).
    - destruct (_frames w !! Z.to_nat i); reflexivity.
    - destruct ((- L <=? i) && (i <? 0)); [| reflexivity].
      destruct (_frames w !! Z.to_nat (i + L)); reflexivity. }
  split; [exact Heq |].
  unfold result. rewrite Heq. cbn [fst].
  destruct (Z.leb_spec 0 i) as [Hpos | Hneg]; cbn [andb].
  - replace (- L <=? i) with true by (symmetry; apply Z.leb_le; lia).
    cbn [andb]. destruct (Z.ltb_spec i L).
    + symmetry. apply bool_decide_eq_true, lookup_lt_is_Some. lia.
    + symmetry. destruct (- L <=? i); cbn;
        replace (i <? 0) with false by (symmetry; apply Z.ltb_ge; lia);
        apply bool_decide_eq_false; intros [? ?]; discriminate.
  - replace (i <? 0) with true by (symmetry; apply Z.ltb_lt; lia).
    replace (i <? L) with true by (symmetry; apply Z.ltb_lt; lia).
    rewrite !andb_true_r. destruct (Z.leb_spec (- L) i).
    + symmetry. apply bool_decide_eq_true, lookup_lt_is_Some. lia.
    + symmetry. apply bool_decide_eq_false. intros [? ?]. discriminate.
Qed.

Lemma ticks_single_frame (path : string) (w : World) (n : nat) :
  _frames w = [path] -> _frame w = 0 ->
  _frames (Samples.ticks n w) = [path] /\ _frame (Samples.ticks n w) = 0.
Proof.
  intros Hfs Hf. induction n as [| n [IHfs IHf]]; [auto |].
  cbn [Samples.ticks]. unfold after.
  rewrite frameChanged_eq, IHfs, PlaybackFacts.jumpToFrame_eq, IHfs, IHf.
  cbn. auto.
Qed.

(** X12. A path that is an ordinary file and no archive gives a
    sequence of exactly that one frame at index 0: [setPath] raises
    nothing and leaves the recorded directory alone, [currentFilename()]
    and [firstFrame()] are the path, [percent()] is 1 and every tick
    stays on index 0. *)
Theorem single_file_sequence
    (fs : FileSystem) (path : string) (w : World) (n : nat) :
  is_zipfile fs path = false ->
  isfile fs path = true ->
  let w' := after (setPath fs path) w in
  result (setPath fs path) w = Return tt
  /\ _frames w' = [path]
  /\ _frame w' = 0
  /\ _dirname w' = _dirname w
  /\ result currentFilename w' = Return (Some path)
  /\ result firstFrame w' = Return path
  /\ result percent w' = Return 1%Q
  /\ _frame (Samples.ticks n w') = 0.
Proof.
  intros Hz Hf w'. subst w'. unfold setPath. rewrite Hz, Hf.
  repeat split.
  apply (ticks_single_frame path); reflexivity.
Qed.

Lemma single_file_sequence_witness :
  is_zipfile Samples.disk "thumb.png" = false
  /\ isfile Samples.disk "thumb.png" = true
  /\ result percent
       (after (setPath Samples.disk "thumb.png") (Samples.loaded "seq"))
     = Return 1%Q.
Proof.
  split; [reflexivity |]. split; [reflexivity |].
  apply (single_file_sequence Samples.disk "thumb.png"
           (Samples.loaded "seq") 0 eq_refl eq_refl).
Defined.

(** X13. [pause()] then [resume()] on an instance with a timer changes
    nothing but the timer, which runs again with its interval, and the
    paused flag, which is false. Without a timer [pause()] raises
    [AttributeError] and still leaves the paused flag set. [resume()]
    on an instance that is not paused does nothing. *)
Theorem pause_resume_round_trip (w : World) :
  match _timer w with
  | Some t =>
      (pause ;; resume) w =
        (Return tt,
         with_paused false
           (with_timer (Some (QTimer_start None (QTimer_stop t))) w))
      /\ interval (QTimer_start None (QTimer_stop t)) = interval t
      /\ isActive (QTimer_start None (QTimer_stop t)) = true
  | None => pause w = (Raise AttributeError, with_paused true w)
  end
  /\ if _paused w then True else resume w = (Return tt, w).
Proof.
  destruct w as [fps [t |] frame fs dir [|] addr handle st log];
    repeat split.
Qed.

(** X14. Reading never writes: [percent], [currentFilename],
    [currentPixmap], [frameCount], [firstFrame], [frames], [dirname],
    [paused] and [currentFrameNumber] leave the instance, the buffers
    and the signal log as they were, also when they raise. *)
Theorem accessors_leave_world (fs : FileSystem) (w : World) :
  after percent w = w
  /\ after currentFilename w = w
  /\ after (currentPixmap fs) w = w
  /\ after frameCount w = w
  /\ after firstFrame w = w
  /\ after frames w = w
  /\ after dirname w = w
  /\ after paused w = w
  /\ after currentFrameNumber w = w.
Proof.
  assert (Hcf : currentFilename w = (result currentFilename w, w)).
  { unfold result. rewrite LifecycleFacts.currentFilename_eq. reflexivity. }
  split.
  { unfold after, percent, bind, get, ret, raise. cbn.
    destruct (_ =? _ + 1); [reflexivity |].
    destruct (_ =? 0); reflexivity. }
  split; [unfold after; rewrite Hcf; reflexivity |].
  split.
  { unfold after, currentPixmap, bind, get. cbn.
    destruct (archive_backed fs w).
    - unfold archive_read, bind, get, raise, ret. cbn.
      destruct (_bytes_read w) as [zf |]; [| reflexivity].
      rewrite Hcf. cbn.
      destruct (result currentFilename w) as [[name |] | e];
        try reflexivity.
      destruct (negb _); [reflexivity |].
      destruct (store w !! fp zf) as [mem |]; [| reflexivity].
      destruct (closed mem); [reflexivity |].
      destruct (read_member _ name); reflexivity.
    - rewrite Hcf. cbn. destruct (result currentFilename w); reflexivity. }
  split; [reflexivity |].
  split; [| repeat split].
  unfold after, firstFrame, bind, get, ret. cbn.
  destruct (_frames w); reflexivity.
Qed.

End PlaybackExtras.

(* ===================================================================== *)
(** ** Sequence source: further properties *)
(* ===================================================================== *)

Module SourceExtras.

Import NaturalOrdering NaturalOrderingFacts ImageSequence.
Local Open Scope py_scope.
Local Open Scope list_scope.

(** *** Members of an archive *)









(** *** What [setBytes] and [setZipfile] leave behind *)



Lemma sort_frames_eq (w : World) :
  sort_frames w =
    match naturalSortItems (_frames w) with
    | Return sorted => (Return tt, with_frames sorted w)
    | Raise e => (Raise e, w)
    end.
Proof.
  unfold sort_frames, bind, get, lift, modify. cbn.
  destruct (naturalSortItems (_frames w)); reflexivity.
Qed.





Lemma getitem_lookup {A} (l : list A) (i : nat) (x : A) :
  l !! i = Some x -> getitem l (Z.of_nat i) = Return x.
Proof.
  intros Hx. pose proof (lookup_lt_Some _ _ _ Hx) as Hlt.
  rewrite PlaybackExtras.getitem_cases. cbv zeta.
  replace (0 <=? Z.of_nat i) with true by (symmetry; apply Z.leb_le; lia).
  replace (Z.of_nat i <? Z.of_nat (length l)) with true
    by (symmetry; apply Z.ltb_lt; lia).
  cbn [andb]. rewrite Nat2Z.id, Hx. reflexivity.
Qed.



(** *** Directories *)

Lemma setDirname_eq (fs : FileSystem) (d : string) (w : World) :
  isdir fs d = true ->
  let listing :=
    map (fun filename => (d ++ "/" ++ filename)%string) (listdir fs d) in
  setDirname fs d w =
    match naturalSortItems listing with
    | Return sorted =>
        (Return tt, with_frames sorted (with_dirname (Some d) w))
    | Raise e =>
        (Raise e, with_frames listing (with_dirname (Some d) w))
    end.
Proof.
  intros Hd listing. unfold setDirname, when. rewrite Hd.
  unfold bind, modify. cbv beta iota. rewrite sort_frames_eq.
  cbn [_frames with_frames]. fold listing.
  destruct (naturalSortItems listing); reflexivity.
Qed.

(** X17. [setDirname] on a directory in which the key of every
    prefixed entry is defined and alternates texts and integers,
    starting with a text: the call raises nothing, the frames are the
    entries, each prefixed with the directory and a slash, in an order
    that is a permutation of the listing and sorted by key, so
    [frameCount()] is the number of entries; the path is recorded and
    the index is not reset. *)
Theorem setDirname_lists_directory (fs : FileSystem) (d : string) (w : World) :
  isdir fs d = true ->
  Forall (fun filename =>
            exists k, alphanum_key (d ++ "/" ++ filename)%string = Return k
                      /\ key_shape false k = true)
    (listdir fs d) ->
  let w' := after (setDirname fs d) w in
  result (setDirname fs d) w = Return tt
  /\ Permutation
       (map (fun filename => (d ++ "/" ++ filename)%string) (listdir fs d))
       (_frames w')
  /\ result frameCount w' = Return (Z.of_nat (length (listdir fs d)))
  /\ (exists ds : list decorated,
         _frames w' = map snd ds
         /\ Forall keyed ds /\ StronglySorted decorated_le ds)
  /\ _dirname w' = Some d
  /\ _frame w' = _frame w.
Proof.
  intros Hd Hk w'. subst w'.
  set (listing :=
         map (fun filename => (d ++ "/" ++ filename)%string) (listdir fs d)).
  assert (Hdef : Forall (fun item => exists k, alphanum_key item = Return k)
                   listing).
  { subst listing. apply Forall_map.
    eapply Forall_impl; [exact Hk |]. intros item (k & Hk' & _). eauto. }
  destruct (natural_sort_sorted listing Hdef) as (ds & Hr & Hperm & Hf & Hs).
  unfold result, after. rewrite (setDirname_eq fs d w Hd). cbv zeta.
  fold listing. rewrite Hr. cbn.
  repeat split; try assumption.
  - rewrite <- (Permutation_length Hperm). subst listing.
    rewrite length_map. reflexivity.
  - exists ds. repeat split; assumption.
Qed.

Lemma setDirname_lists_directory_witness :
  isdir Samples.disk "seq" = true
  /\ Forall (fun filename =>
               exists k, alphanum_key ("seq" ++ "/" ++ filename)%string
                         = Return k
                         /\ key_shape false k = true)
       (listdir Samples.disk "seq")
  /\ result frameCount (after (setDirname Samples.disk "seq") new_world)
     = Return 3.
Proof.
  assert (Hk : Forall (fun filename =>
                         exists k, alphanum_key ("seq" ++ "/" ++ filename)%string
                                   = Return k
                                   /\ key_shape false k = true)
                 (listdir Samples.disk "seq"))
    by (repeat constructor; eexists; split; reflexivity).
  split; [reflexivity |]. split; [exact Hk |].
  apply (setDirname_lists_directory Samples.disk "seq" new_world eq_refl Hk).
Defined.

Lemma natural_sort_raises (items : list string) (item : string) :
  In item items -> alphanum_key item = Raise ValueError ->
  naturalSortItems items = Raise ValueError.
Proof.
  intros Hin He. unfold naturalSortItems.
  destruct (omap_decorate_spec items)
    as [(ds & Hds & Hm & Hf) | (Hr & _)].
  - rewrite <- Hm in Hin.
    destruct (NaturalOrderingExtras.keyed_in_map_snd ds item Hf Hin) as [k Hk].
    congruence.
  - rewrite Hr. reflexivity.
Qed.

(** X18. [setDirname] is not all-or-nothing: when the key of one entry
    of the directory raises, the call raises [ValueError] after it has
    recorded the path and replaced the frame list by the prefixed
    listing, in the order the operating system gave it. *)
Theorem setDirname_sort_failure
    (fs : FileSystem) (d : string) (w : World) (filename : string) :
  isdir fs d = true ->
  In filename (listdir fs d) ->
  alphanum_key (d ++ "/" ++ filename)%string = Raise ValueError ->
  setDirname fs d w =
    (Raise ValueError,
     with_frames
       (map (fun filename => (d ++ "/" ++ filename)%string) (listdir fs d))
       (with_dirname (Some d) w)).
Proof.
  intros Hd Hin He. rewrite (setDirname_eq fs d w Hd). cbv zeta.
  rewrite (natural_sort_raises _ (d ++ "/" ++ filename)%string);
    [reflexivity | | exact He].
  apply in_map_iff. exists filename. split; [reflexivity | exact Hin].
Qed.

Lemma setDirname_sort_failure_witness :
  isdir Samples.odd_disk "odd" = true
  /\ In Samples.one_squared (listdir Samples.odd_disk "odd")
  /\ alphanum_key ("odd" ++ "/" ++ Samples.one_squared)%string
     = Raise ValueError
  /\ result (setDirname Samples.odd_disk "odd") new_world = Raise ValueError
  /\ _frames (after (setDirname Samples.odd_disk "odd") new_world)
     = ["odd/f2"; ("odd/" ++ Samples.one_squared)%string; "odd/f1"].
Proof.
  assert (Hin : In Samples.one_squared (listdir Samples.odd_disk "odd"))
    by (right; left; reflexivity).
  split; [reflexivity |]. split; [exact Hin |]. split; [reflexivity |].
  unfold result, after.
  rewrite (setDirname_sort_failure Samples.odd_disk "odd" new_world
             Samples.one_squared eq_refl Hin eq_refl).
  split; reflexivity.
Defined.

(** *** Start *)

Lemma bind_return {A B} (m : M A) (k : A -> M B) (w w1 : World) (a : A) :
  m w = (Return a, w1) -> bind m k w = k a w1.
Proof. intros H. unfold bind. rewrite H. reflexivity. Qed.




End SourceExtras.

(* ===================================================================== *)
(** ** Seeking *)
(* ===================================================================== *)

Module SeekExtras.

Import ImageSequence.
Local Open Scope py_scope.
Local Open Scope list_scope.

(** X20. Seeking then asking for the file: on a sequence with frames,
    [jumpToFrame(i)] with [i >= 0] followed by [currentFilename()]
    always yields a frame, never [None]: the frame at [i], or the first
    frame when [i] is past the end. *)
Theorem seek_then_filename (w : World) (i : Z) :
  _frames w <> [] ->
  0 <= i ->
  exists f : string,
    result (jumpToFrame i ;; currentFilename) w = Return (Some f)
    /\ _frames w
       !! Z.to_nat (if decide (Z.of_nat (length (_frames w)) <= i)
                    then 0 else i)
       = Some f.
Proof.
  intros Hne Hi. set (L := Z.of_nat (length (_frames w))).
  set (j := if decide (L <= i) then 0 else i).
  assert (HL : 0 < L).
  { subst L. destruct (_frames w); [congruence | cbn; lia]. }
  assert (Hj : 0 <= j < L) by (subst j; destruct (decide (L <= i)); lia).
  destruct (lookup_lt_is_Some_2 (_frames w) (Z.to_nat j)) as [f Hf]; [lia |].
  exists f. split; [| exact Hf].
  unfold result.
  rewrite (SourceExtras.bind_return _ _ w _ tt
             (PlaybackFacts.jumpToFrame_eq i w)).
  cbv zeta. fold L.
  assert (Hsel : (if i >=? L then 0 else i) = j).
  { subst j. destruct (Z.geb_spec i L), (decide (L <= i)); lia. }
  rewrite Hsel, LifecycleFacts.currentFilename_eq.
  cbn [fst _frames _frame with_frameChanged with_frame].
  rewrite <- (Z2Nat.id j) at 1 by lia.
  rewrite (SourceExtras.getitem_lookup _ _ _ Hf). reflexivity.
Qed.

Lemma seek_then_filename_witness :
  let w := Samples.loaded "seq" in
  _frames w <> [] /\ 0 <= 7
  /\ result (jumpToFrame 7 ;; currentFilename) w = Return (Some "seq/f1")
  /\ result (jumpToFrame 2 ;; currentFilename) w = Return (Some "seq/f10").
Proof.
  intros w.
  assert (Hne : _frames w <> []) by discriminate.
  assert (H7 : 0 <= 7) by lia.
  split; [exact Hne |]. split; [exact H7 |].
  destruct (seek_then_filename w 7 Hne H7) as (f & Hr & Hf).
  split; [| reflexivity].
  rewrite Hr. cbn in Hf. rewrite <- Hf. reflexivity.
Defined.

End SeekExtras.
